(** * ChainMail: the on-chain ledger contract and its relay endpoint

    A shallow embedding of the [ChainMail] contract (Solidity ^0.8.0) and of
    the relay's [send-email] route handler, followed by the properties the
    specification states about them.

    Conventions of the embedding.
    - [uint256] and [address] values are binary naturals ([N]).  The only
      arithmetic of the contract is [emailCount++]; Solidity 0.8 checks it,
      so the increment is written with its overflow test and the
      [Panic(0x11)] it raises.
    - A [mapping] is a finite map ([gmap]) read with the type's zero value
      as default; a dynamic storage array is a list and [push] appends.
    - Contract code runs in a state-and-failure monad.  A failure carries
      the storage as it was when the failure was raised, so that "nothing
      was written before the check" is a statement about the code and not
      only about the rollback the virtual machine performs.
    - Calls carry no value and enough gas. *)

From Stdlib Require Import NArith String Ascii.
From stdpp Require Import gmap strings list fin_maps pretty sorting.

Local Open Scope string_scope.
Local Open Scope list_scope.
Local Open Scope N_scope.

(** ** Data model *)

Abbreviation address := N (only parsing).
Abbreviation uint256 := N (only parsing).

Definition MAX_UINT256 : N := 2 ^ 256 - 1.

(** [bytes(s).length] *)
Definition bytes_length (s : string) : N := N.of_nat (String.length s).

Record Email := mkEmail {
  sender : address;
  recipient : address;
  ipfsHash : string;
  timestamp : uint256;
  isImmutable : bool
}.

(** The value a [mapping(uint256 => Email)] holds at a key never written. *)
Definition zero_Email : Email := mkEmail 0 0 "" 0 false.

Inductive Event :=
| EmailSent (emailId : uint256) (from to : address) (hash : string) (time : uint256)
| PublicKeyRegistered (user : address) (publicKey : string) (time : uint256).

(** Storage of the contract, one field per state variable. *)
Record ChainMail := mkChainMail {
  emails : gmap N Email;
  emailCount : uint256;
  recipientEmails : gmap N (list N);
  senderEmails : gmap N (list N);
  publicKeys : gmap N string;
  owner : address;
  relayAddress : address
}.

(** Storage before the constructor runs: every slot is zero. *)
Definition zero_storage : ChainMail := mkChainMail ∅ 0 ∅ ∅ ∅ 0 0.

(** Reads of the mappings ([m[k]] in the source). *)
Definition emails_at (st : ChainMail) (id : uint256) : Email :=
  default zero_Email (emails st !! id).
Definition recipientEmails_at (st : ChainMail) (a : address) : list N :=
  default [] (recipientEmails st !! a).
Definition senderEmails_at (st : ChainMail) (a : address) : list N :=
  default [] (senderEmails st !! a).
Definition publicKeys_at (st : ChainMail) (a : address) : string :=
  default "" (publicKeys st !! a).

(** What the code reads of the transaction: [msg.sender], [block.timestamp]. *)
Record Env := mkEnv {
  msg_sender : address;
  block_timestamp : uint256
}.

(** ** The execution monad *)

Inductive Failure :=
| Error (reason : string)      (* a failed [require] *)
| Panic (code : N).            (* a compiler-inserted check, 0x11 = overflow *)

Inductive outcome (A : Type) :=
| Success (a : A) (st : ChainMail) (log : list Event)
| Reverted (f : Failure) (dirty : ChainMail).
Arguments Success {A} a st log.
Arguments Reverted {A} f dirty.

Definition M (A : Type) : Type := ChainMail → outcome A.

Definition ret {A} (a : A) : M A := λ st, Success a st [].

Definition bind {A B} (m : M A) (k : A → M B) : M B := λ st,
  match m st with
  | Success a st1 log1 =>
      match k a st1 with
      | Success b st2 log2 => Success b st2 (log1 ++ log2)
      | Reverted f dirty => Reverted f dirty
      end
  | Reverted f dirty => Reverted f dirty
  end.

Notation "'let!' x ':=' m 'in' k" := (bind m (λ x, k))
  (at level 10, x name, m at level 100, k at level 200).
Notation "'do!' m 'in' k" := (bind m (λ _, k))
  (at level 10, m at level 100, k at level 200).

Definition get : M ChainMail := λ st, Success st st [].
Definition modify (f : ChainMail → ChainMail) : M unit := λ st, Success tt (f st) [].
Definition emit (e : Event) : M unit := λ st, Success tt st [e].
Definition require (c : bool) (reason : string) : M unit := λ st,
  if c then Success tt st [] else Reverted (Error reason) st.
Definition panic {A} (code : N) : M A := λ st, Reverted (Panic code) st.

(** Whether a run failed, and the storage the ledger keeps after it: the
    new storage on success, the storage of before on failure. *)
Definition is_reverted {A} (o : outcome A) : bool :=
  match o with Success _ _ _ => false | Reverted _ _ => true end.
Definition committed {A} (st : ChainMail) (o : outcome A) : ChainMail :=
  match o with Success _ st' _ => st' | Reverted _ _ => st end.

(** ** Field updates *)

Definition set_emails (f : gmap N Email → gmap N Email) (st : ChainMail) :=
  mkChainMail (f (emails st)) (emailCount st) (recipientEmails st)
    (senderEmails st) (publicKeys st) (owner st) (relayAddress st).
Definition set_emailCount (n : uint256) (st : ChainMail) :=
  mkChainMail (emails st) n (recipientEmails st)
    (senderEmails st) (publicKeys st) (owner st) (relayAddress st).
Definition set_recipientEmails (f : gmap N (list N) → gmap N (list N)) (st : ChainMail) :=
  mkChainMail (emails st) (emailCount st) (f (recipientEmails st))
    (senderEmails st) (publicKeys st) (owner st) (relayAddress st).
Definition set_senderEmails (f : gmap N (list N) → gmap N (list N)) (st : ChainMail) :=
  mkChainMail (emails st) (emailCount st) (recipientEmails st)
    (f (senderEmails st)) (publicKeys st) (owner st) (relayAddress st).
Definition set_publicKeys (f : gmap N string → gmap N string) (st : ChainMail) :=
  mkChainMail (emails st) (emailCount st) (recipientEmails st)
    (senderEmails st) (f (publicKeys st)) (owner st) (relayAddress st).
Definition set_owner (a : address) (st : ChainMail) :=
  mkChainMail (emails st) (emailCount st) (recipientEmails st)
    (senderEmails st) (publicKeys st) a (relayAddress st).
Definition set_relayAddress (a : address) (st : ChainMail) :=
  mkChainMail (emails st) (emailCount st) (recipientEmails st)
    (senderEmails st) (publicKeys st) (owner st) a.

(** [arr[k].push(x)] on a mapping of arrays. *)
Definition push_at (k : address) (x : N) (m : gmap N (list N)) : gmap N (list N) :=
  <[k := default [] (m !! k) ++ [x]]> m.

(** ** The contract *)

(** [modifier onlyOwner] *)
Definition onlyOwner {A} (env : Env) (body : M A) : M A :=
  let! st := get in
  do! require (bool_decide (msg_sender env = owner st)) "Not contract owner" in
  body.

(** [modifier onlyRelay] *)
Definition onlyRelay {A} (env : Env) (body : M A) : M A :=
  let! st := get in
  do! require (bool_decide (msg_sender env = relayAddress st)) "Not authorized relay" in
  body.

Definition constructor (env : Env) (_relayAddress : address) : M unit :=
  do! modify (set_owner (msg_sender env)) in
  modify (set_relayAddress _relayAddress).

Definition setRelayAddress (env : Env) (_relayAddress : address) : M unit :=
  onlyOwner env (
    do! require (negb (bool_decide (_relayAddress = 0))) "Invalid relay address" in
    modify (set_relayAddress _relayAddress)).

Definition transferOwnership (env : Env) (_newOwner : address) : M unit :=
  onlyOwner env (
    do! require (negb (bool_decide (_newOwner = 0))) "Invalid owner address" in
    modify (set_owner _newOwner)).

(** [emailCount++], checked as Solidity 0.8 does. *)
Definition increment_emailCount : M unit :=
  let! st := get in
  if bool_decide (emailCount st = MAX_UINT256) then panic 17
  else modify (set_emailCount (emailCount st + 1)).

Definition _logEmail (env : Env) (_sender _recipient : address) (_ipfsHash : string)
  : M uint256 :=
  do! require (negb (bool_decide (_sender = 0))) "Invalid sender address" in
  do! require (negb (bool_decide (_recipient = 0))) "Invalid recipient address" in
  do! require (0 <? bytes_length _ipfsHash) "IPFS hash cannot be empty" in
  do! increment_emailCount in
  let! st := get in
  let emailId := emailCount st in
  do! modify (set_emails (insert emailId
        (mkEmail _sender _recipient _ipfsHash (block_timestamp env) true))) in
  do! modify (set_recipientEmails (push_at _recipient emailId)) in
  do! modify (set_senderEmails (push_at _sender emailId)) in
  do! emit (EmailSent emailId _sender _recipient _ipfsHash (block_timestamp env)) in
  ret emailId.

Definition logSend (env : Env) (_recipient : address) (_ipfsHash : string) : M uint256 :=
  _logEmail env (msg_sender env) _recipient _ipfsHash.

Definition logSendFor (env : Env) (_sender _recipient : address) (_ipfsHash : string)
  : M uint256 :=
  onlyRelay env (_logEmail env _sender _recipient _ipfsHash).

Definition getRecipientEmails (_recipient : address) : M (list N) :=
  let! st := get in ret (recipientEmails_at st _recipient).

Definition getSenderEmails (_sender : address) : M (list N) :=
  let! st := get in ret (senderEmails_at st _sender).

Definition getEmail (_emailId : uint256)
  : M (address * address * string * uint256 * bool) :=
  let! st := get in
  do! require ((0 <? _emailId) && (_emailId <=? emailCount st)) "Invalid email ID" in
  let email := emails_at st _emailId in
  ret (sender email, recipient email, ipfsHash email, timestamp email, isImmutable email).

Definition _setPublicKey (env : Env) (_user : address) (_publicKey : string) : M unit :=
  do! require (negb (bool_decide (_user = 0))) "Invalid user address" in
  do! require (0 <? bytes_length _publicKey) "Public key cannot be empty" in
  do! modify (set_publicKeys (insert _user _publicKey)) in
  emit (PublicKeyRegistered _user _publicKey (block_timestamp env)).

Definition registerPublicKey (env : Env) (_publicKey : string) : M unit :=
  _setPublicKey env (msg_sender env) _publicKey.

Definition registerPublicKeyFor (env : Env) (_user : address) (_publicKey : string)
  : M unit :=
  onlyRelay env (_setPublicKey env _user _publicKey).

Definition getPublicKey (_user : address) : M string :=
  let! st := get in ret (publicKeys_at st _user).

Definition getTotalEmails : M uint256 :=
  let! st := get in ret (emailCount st).

(** ** Transactions

    The public state-mutating surface of the contract, one constructor per
    external function, and the ledger's handling of a call: the storage a
    successful call leaves is kept, a failed call changes nothing. *)

Inductive Call :=
| SetRelayAddress (_relayAddress : address)
| TransferOwnership (_newOwner : address)
| LogSend (_recipient : address) (_ipfsHash : string)
| LogSendFor (_sender _recipient : address) (_ipfsHash : string)
| RegisterPublicKey (_publicKey : string)
| RegisterPublicKeyFor (_user : address) (_publicKey : string).

Inductive Returned :=
| NoValue
| Id (emailId : uint256).

Definition returning {A} (f : A → Returned) (m : M A) : M Returned :=
  let! a := m in ret (f a).

Definition dispatch (env : Env) (c : Call) : M Returned :=
  match c with
  | SetRelayAddress a => returning (λ _, NoValue) (setRelayAddress env a)
  | TransferOwnership a => returning (λ _, NoValue) (transferOwnership env a)
  | LogSend r h => returning Id (logSend env r h)
  | LogSendFor s r h => returning Id (logSendFor env s r h)
  | RegisterPublicKey k => returning (λ _, NoValue) (registerPublicKey env k)
  | RegisterPublicKeyFor u k => returning (λ _, NoValue) (registerPublicKeyFor env u k)
  end.

Record Tx := mkTx {
  tx_env : Env;
  tx_call : Call
}.

Definition receipt (st : ChainMail) (tx : Tx) : outcome Returned :=
  dispatch (tx_env tx) (tx_call tx) st.

Definition execute (st : ChainMail) (tx : Tx) : ChainMail :=
  committed st (receipt st tx).

Definition run (st : ChainMail) (txs : list Tx) : ChainMail :=
  fold_left execute txs st.

(** Deployment by [msg_sender env] with constructor argument [_relayAddress]. *)
Definition deploy (env : Env) (_relayAddress : address) : ChainMail :=
  committed zero_storage (constructor env _relayAddress zero_storage).

Definition is_submission (c : Call) : bool :=
  match c with
  | LogSend _ _ | LogSendFor _ _ _ => true
  | _ => false
  end.

(** The submissions of a history that succeeded, and the ids they returned,
    oldest first. *)
Fixpoint successful_submissions (st : ChainMail) (txs : list Tx) : nat :=
  match txs with
  | [] => 0%nat
  | tx :: rest =>
      ((if is_submission (tx_call tx) && negb (is_reverted (receipt st tx))
        then 1 else 0)
       + successful_submissions (execute st tx) rest)%nat
  end.

Fixpoint returned_ids (st : ChainMail) (txs : list Tx) : list N :=
  match txs with
  | [] => []
  | tx :: rest =>
      match receipt st tx with
      | Success (Id n) _ _ => [n]
      | _ => []
      end ++ returned_ids (execute st tx) rest
  end.

(** The ids [1, 2, ..., n]. *)
Definition ids_upto (n : N) : list N := N.of_nat <$> seq 1 (N.to_nat n).

(** ** Notions used by the statements *)

(** The storage [_logEmail] leaves when it succeeds. *)
Definition logged (env : Env) (s r : address) (h : string) (st : ChainMail) : ChainMail :=
  let emailId := emailCount st + 1 in
  mkChainMail
    (<[emailId := mkEmail s r h (block_timestamp env) true]> (emails st))
    emailId
    (push_at r emailId (recipientEmails st))
    (push_at s emailId (senderEmails st))
    (publicKeys st) (owner st) (relayAddress st).

(** Everything a transaction may do to the storage. *)
Inductive step (st : ChainMail) : ChainMail → Prop :=
| step_rejected : step st st
| step_logged env s r h :
    s ≠ 0 → r ≠ 0 → h ≠ "" → emailCount st ≠ MAX_UINT256 →
    step st (logged env s r h st)
| step_key u k : u ≠ 0 → k ≠ "" → step st (set_publicKeys (insert u k) st)
| step_relay a : a ≠ 0 → step st (set_relayAddress a st)
| step_owner a : a ≠ 0 → step st (set_owner a st).

(** What a stored record looks like: the three checks of [_logEmail] passed
    and the flag is set. *)
Definition created (e : Email) : Prop :=
  sender e ≠ 0 ∧ recipient e ≠ 0 ∧ ipfsHash e ≠ "" ∧ isImmutable e = true.

(** Exactly the keys [1 .. emailCount] of [emails] hold a record. *)
Definition records_dense (st : ChainMail) : Prop :=
  ∀ k, (1 ≤ k ≤ emailCount st → ∃ e, emails st !! k = Some e ∧ created e)
       ∧ (k = 0 ∨ emailCount st < k → emails st !! k = None).

(** A small history used to exercise the statements: account 10 deploys
    with relay 20; 11 sends to 12; 13 tries to use the relay entry point and
    is refused; the relay submits for 11; 12 registers a key; the relay
    submits for 12 to 11. *)
Definition sample_deployment : ChainMail := deploy (mkEnv 10 1000) 20.
Definition sample_history : list Tx :=
  [mkTx (mkEnv 11 1001) (LogSend 12 "cid1");
   mkTx (mkEnv 13 1002) (LogSendFor 11 12 "x");
   mkTx (mkEnv 20 1003) (LogSendFor 11 12 "cid2");
   mkTx (mkEnv 12 1004) (RegisterPublicKey "K");
   mkTx (mkEnv 20 1005) (LogSendFor 12 11 "cid3")].
Definition sample_state : ChainMail := run sample_deployment sample_history.

(** What every transition keeps. *)
Record extends (st st' : ChainMail) : Prop := mkExtends {
  extends_emails : ∀ id, 1 ≤ id ≤ emailCount st → emails_at st' id = emails_at st id;
  extends_count : emailCount st ≤ emailCount st';
  extends_recipient : ∀ a, recipientEmails_at st a `prefix_of` recipientEmails_at st' a;
  extends_sender : ∀ a, senderEmails_at st a `prefix_of` senderEmails_at st' a
}.

(** The ids of the stored records addressed to [r], respectively sent by
    [s], in increasing id order, which is the order of creation since ids
    are handed out in increasing order. *)
Definition received_by (st : ChainMail) (r : address) : list N :=
  filter (λ id, recipient (emails_at st id) = r) (ids_upto (emailCount st)).
Definition sent_by (st : ChainMail) (s : address) : list N :=
  filter (λ id, sender (emails_at st id) = s) (ids_upto (emailCount st)).

Definition indices_exact (st : ChainMail) : Prop :=
  (∀ r, recipientEmails_at st r = received_by st r) ∧
  (∀ s, senderEmails_at st s = sent_by st s).

(** The key a transaction asks to register for account [a], if any. *)
Definition registration_for (a : address) (tx : Tx) : option string :=
  match tx_call tx with
  | RegisterPublicKey k =>
      if bool_decide (msg_sender (tx_env tx) = a) then Some k else None
  | RegisterPublicKeyFor u k =>
      if bool_decide (u = a) then Some k else None
  | _ => None
  end.

(** The keys successfully registered for [a] along a history, oldest first. *)
Fixpoint registered_keys (st : ChainMail) (txs : list Tx) (a : address) : list string :=
  match txs with
  | [] => []
  | tx :: rest =>
      match registration_for a tx with
      | Some k => if is_reverted (receipt st tx) then [] else [k]
      | None => []
      end ++ registered_keys (execute st tx) rest a
  end.

(** A call passes the relay check, respectively the owner check, when it is
    not rejected with that check's reason. *)
Definition passes_relay_check {A} (o : outcome A) : Prop :=
  ∀ dirty, o ≠ Reverted (Error "Not authorized relay") dirty.
Definition passes_owner_check {A} (o : outcome A) : Prop :=
  ∀ dirty, o ≠ Reverted (Error "Not contract owner") dirty.

(** * The relay's send-email endpoint

    [POST] of [app/api/relay/send-email/route.ts].  The handler talks to
    four collaborators: the HTTP request, the process environment, the
    ledger's RPC provider (through ethers) and the contract binding.  Each
    collaborator is a field of [World] giving what the call returns or
    throws; the handler returns its response together with the list of
    ledger interactions it performed, oldest first. *)

Module Relay.

(** JavaScript values as far as the handler looks at them: it tests the
    request fields for truthiness and hands them to the contract binding.
    A number is kept as an integer. *)
Inductive JsValue :=
| JsUndefined
| JsNull
| JsBool (b : bool)
| JsNumber (z : Z)
| JsString (s : string)
| JsObject.

Definition truthy (v : JsValue) : bool :=
  match v with
  | JsUndefined | JsNull => false
  | JsBool b => b
  | JsNumber z => negb (bool_decide (z = 0%Z))
  | JsString s => negb (bool_decide (s = ""))
  | JsObject => true
  end.

(** What a [catch] clause may receive. *)
Inductive Thrown :=
| ErrorInstance (message : string)     (* [error instanceof Error] *)
| NotAnError (value : JsValue).

Inductive result (A : Type) :=
| Returns (a : A)
| Throws (t : Thrown).
Arguments Returns {A} a.
Arguments Throws {A} t.

(** [const { recipientAddress, ipfsHash, userAddress } = await request.json()] *)
Record RequestBody := mkRequestBody {
  recipientAddress : JsValue;
  ipfsHash : JsValue;
  userAddress : JsValue
}.

Record Log := mkLog {
  topics : list string;
  data : string
}.

Record TransactionResponse := mkTransactionResponse {
  tx_hash : string
}.

Record Receipt := mkReceipt {
  blockNumber : N;
  logs : list Log;
  hash : string;
  gasUsed : N
}.

(** An entry of an ABI as far as the handler's calls look at it: a
    function by its declaration, an event by its topic hash. *)
Inductive Fragment :=
| FunctionFragment (declaration : string)
| EventFragment (topicHash : string).

(** Lines 4-6: the ABI the handler binds the contract to.  It declares
    [logSendFor] and no event. *)
Definition CHAINMAIL_ABI : list Fragment :=
  [FunctionFragment "function logSendFor(address _sender, address _recipient, string memory _ipfsHash) public returns (uint256)"].

(** [interface.getEvent(topic)]: the event of the ABI with that topic hash,
    [None] for [null] when the ABI has none. *)
Definition getEvent (abi : list Fragment) (topic : string) : option Fragment :=
  List.find (λ fragment,
    match fragment with
    | EventFragment topicHash => bool_decide (topicHash = topic)
    | FunctionFragment _ => false
    end) abi.

Record World := mkWorld {
  (** [await request.json()], destructured; a body that cannot be read or
      destructured throws. *)
  request_json : result RequestBody;
  (** [process.env.*]: a string, or [None] for [undefined]. *)
  RELAY_WALLET_PRIVATE_KEY : option string;
  NEXT_PUBLIC_BLOCKDAG_RPC_URL : option string;
  NEXT_PUBLIC_CHAINMAIL_CONTRACT_ADDRESS : option string;
  (** [new ethers.Wallet(key, new ethers.JsonRpcProvider(rpcUrl))]: the
      wallet's address. *)
  new_Wallet : string → string → result string;
  (** [await provider.getBalance(address)], in wei. *)
  getBalance : string → string → result N;
  (** [new ethers.Contract(contractAddress, CHAINMAIL_ABI, relayWallet)] *)
  new_Contract : string → string → result unit;
  (** [await contract.logSendFor(user, recipient, hash)] on the contract
      bound to the given address and the relay wallet. *)
  contract_logSendFor : string → JsValue → JsValue → JsValue → result TransactionResponse;
  (** [await tx.wait()] *)
  wait : TransactionResponse → result Receipt;
  (** The first argument [parseLog] decodes from a log by an event of the
      ABI: [interface.decodeEventLog(fragment, log.data, log.topics)[0]]. *)
  decodeEventLog_arg0 : Fragment → Log → result N
}.

(** The interactions with the ledger a run of the handler performs. *)
Inductive Effect :=
| BalanceQueried (address : string)
| Submitted (contractAddress : string) (user recipient hash : JsValue)
| ReceiptAwaited (tx : TransactionResponse).

Definition is_submission (e : Effect) : bool :=
  match e with Submitted _ _ _ _ => true | _ => false end.

Inductive Body :=
| ErrorBody (error : string)
| SuccessBody (emailId : N) (transactionHash : string) (gasUsed : string).

Record Response := mkResponse {
  status : N;
  body : Body
}.

(** [NextResponse.json(body, { status })]; the status defaults to 200. *)
Definition json (b : Body) (status : N) : Response := mkResponse status b.


(** A run of the [try] block: a value or a thrown value, and the
    interactions performed so far. *)
Inductive attempt (A : Type) :=
| Done (a : A) (trace : list Effect)
| Threw (t : Thrown) (trace : list Effect).
Arguments Done {A} a trace.
Arguments Threw {A} t trace.

Definition T (A : Type) : Type := list Effect → attempt A.

Definition pure {A} (a : A) : T A := λ tr, Done a tr.

Definition andThen {A B} (m : T A) (k : A → T B) : T B := λ tr,
  match m tr with
  | Done a tr' => k a tr'
  | Threw t tr' => Threw t tr'
  end.

(** A call of a collaborator that leaves no mark on the ledger. *)
Definition await {A} (r : result A) : T A := λ tr,
  match r with
  | Returns a => Done a tr
  | Throws t => Threw t tr
  end.

(** A call of a collaborator that reaches the ledger: recorded even when
    it throws. *)
Definition perform {A} (e : Effect) (r : result A) : T A := λ tr,
  match r with
  | Returns a => Done a (tr ++ [e])
  | Throws t => Threw t (tr ++ [e])
  end.

Notation "'let*' x ':=' m 'in' k" := (andThen m (λ x, k))
  (at level 10, x name, m at level 100, k at level 200).

(** [!s] is false: the variable is set and not the empty string. *)
Definition configured (o : option string) : option string :=
  match o with
  | Some s => if bool_decide (s = "") then None else Some s
  | None => None
  end.

Section Handler.

(** [parseFloat(ethers.formatEther(balance)) < 0.001], a comparison of
    binary64 values, as a test on the balance in wei. *)
Variable below_minimum : N → bool.

(** [ethers.id('EmailSent(uint256,address,address,string,uint256)')] *)
Variable EmailSent_topic : string.

(** [Number(x)] of a bigint. *)
Variable Number : N → N.

Variable w : World.

(** [contract.interface.parseLog({ topics, data })?.args[0]] on the
    interface of [CHAINMAIL_ABI]: [parseLog] looks the first topic up among
    the events of the ABI and returns [null] when none has it; only a log
    of a declared event is decoded.  (The log passed has a first topic: it
    was selected by it.) *)
Definition parseLog_args0 (log : Log) : result (option N) :=
  match topics log with
  | topic0 :: _ =>
      match getEvent CHAINMAIL_ABI topic0 with
      | Some fragment =>
          match decodeEventLog_arg0 w fragment log with
          | Returns arg0 => Returns (Some arg0)
          | Throws t => Throws t
          end
      | None => Returns None
      end
  | [] => Returns None
  end.

(** Lines 69-86: [emailId] is 0 unless the receipt has a log whose first
    topic is the signature of [EmailSent] and [parseLog] describes it with
    a first argument that is not zero; [Number(parsedLog?.args[0] || 0)]
    is then that argument as a number. *)
Definition extract_emailId (receipt : Receipt) : T N :=
  let emailSentEvent :=
    List.find (λ log,
      match topics log with
      | topic0 :: _ => bool_decide (topic0 = EmailSent_topic)
      | [] => false
      end) (logs receipt) in
  match emailSentEvent with
  | Some log =>
      let* arg0 := await (parseLog_args0 log) in
      match arg0 with
      | Some n => if bool_decide (n = 0) then pure 0 else pure (Number n)
      | None => pure 0
      end
  | None => pure 0
  end.

Definition try_block : T Response :=
  let* request := await (request_json w) in
  if negb (truthy (recipientAddress request))
     || negb (truthy (ipfsHash request))
     || negb (truthy (userAddress request))
  then pure (json (ErrorBody "Missing required fields") 400)
  else
  match configured (RELAY_WALLET_PRIVATE_KEY w) with
  | None => pure (json (ErrorBody "Relay wallet not configured") 500)
  | Some relayPrivateKey =>
  if bool_decide (relayPrivateKey = "your_relay_wallet_private_key_here")
  then pure (json (ErrorBody "Relay wallet not configured") 500)
  else
  match configured (NEXT_PUBLIC_BLOCKDAG_RPC_URL w),
        configured (NEXT_PUBLIC_CHAINMAIL_CONTRACT_ADDRESS w) with
  | Some rpcUrl, Some contractAddress =>
      let* relayWallet := await (new_Wallet w relayPrivateKey rpcUrl) in
      let* balance :=
        perform (BalanceQueried relayWallet) (getBalance w rpcUrl relayWallet) in
      if below_minimum balance
      then pure (json (ErrorBody "Relay wallet balance too low") 500)
      else
      let* contract := await (new_Contract w contractAddress relayWallet) in
      let* tx :=
        perform (Submitted contractAddress (userAddress request)
                   (recipientAddress request) (ipfsHash request))
          (contract_logSendFor w contractAddress (userAddress request)
             (recipientAddress request) (ipfsHash request)) in
      let* receipt := perform (ReceiptAwaited tx) (wait w tx) in
      let* emailId := extract_emailId receipt in
      pure (json (SuccessBody emailId (hash receipt)
                    (pretty (gasUsed receipt))) 200)
  | _, _ => pure (json (ErrorBody "Blockchain configuration missing") 500)
  end
  end.

(** [error instanceof Error ? error.message : 'Unknown error'] *)
Definition reported (t : Thrown) : string :=
  match t with
  | ErrorInstance message => message
  | NotAnError _ => "Unknown error"
  end.

Definition POST : Response * list Effect :=
  match try_block [] with
  | Done response trace => (response, trace)
  | Threw error trace => (json (ErrorBody (reported error)) 500, trace)
  end.

End Handler.

End Relay.



(** The minimum of the handler read on the integer balance: one
    thousandth of a coin is 10^15 wei. *)
Definition below_0_001_ether (wei : N) : bool := wei <? 10 ^ 15.

(** A world in which the request is complete, the configuration is set and
    every collaborator answers, but for the balance query, which answers
    [balance]. *)
Definition sample_world (balance : Relay.result N) : Relay.World :=
  Relay.mkWorld
    (Relay.Returns (Relay.mkRequestBody
       (Relay.JsString "0xB") (Relay.JsString "cid1") (Relay.JsString "0xA")))
    (Some "0xkey") (Some "http://rpc") (Some "0xC")
    (λ _ _, Relay.Returns "0xRelay")
    (λ _ _, balance)
    (λ _ _, Relay.Returns tt)
    (λ _ _ _ _, Relay.Returns (Relay.mkTransactionResponse "0xtx"))
    (λ _, Relay.Returns (Relay.mkReceipt 7 [Relay.mkLog ["0xtopic"] "0xdata"] "0xtx" 21000))
    (λ _ _, Relay.Returns 1).

(** The same world without a contract address. *)
Definition unconfigured_world : Relay.World :=
  Relay.mkWorld
    (Relay.request_json (sample_world (Relay.Returns 0)))
    (Some "0xkey") (Some "http://rpc") None
    (λ _ _, Relay.Returns "0xRelay")
    (λ _ _, Relay.Returns (10 ^ 18))
    (λ _ _, Relay.Returns tt)
    (λ _ _ _ _, Relay.Returns (Relay.mkTransactionResponse "0xtx"))
    (λ _, Relay.Returns (Relay.mkReceipt 7 [] "0xtx" 21000))
    (λ _ _, Relay.Returns 1).

(** ** The event log *)

(** The events a history emits, oldest first: the log of each call that
    succeeds; a call that fails leaves no event. *)
Fixpoint emitted (st : ChainMail) (txs : list Tx) : list Event :=
  match txs with
  | [] => []
  | tx :: rest =>
      match receipt st tx with
      | Success _ _ log => log
      | Reverted _ _ => []
      end ++ emitted (execute st tx) rest
  end.

Definition is_EmailSent (e : Event) : bool :=
  match e with
  | EmailSent _ _ _ _ _ => true
  | PublicKeyRegistered _ _ _ => false
  end.

(** The event that announced the record stored under [id]. *)
Definition announcement (st : ChainMail) (id : uint256) : Event :=
  EmailSent id (sender (emails_at st id)) (recipient (emails_at st id))
    (ipfsHash (emails_at st id)) (timestamp (emails_at st id)).

(** The keys the [PublicKeyRegistered] events of a log carry for [a]. *)
Definition keys_announced (a : address) (log : list Event) : list string :=
  omap (λ e, match e with
             | PublicKeyRegistered u k _ => if bool_decide (u = a) then Some k else None
             | EmailSent _ _ _ _ _ => None
             end) log.

(** The block timestamps of a history do not go back. *)
Definition chronological (txs : list Tx) : Prop :=
  StronglySorted N.le ((λ tx, block_timestamp (tx_env tx)) <$> txs).

(** The account a registration call writes to. *)
Definition registration_target (env : Env) (c : Call) : option address :=
  match c with
  | RegisterPublicKey _ => Some (msg_sender env)
  | RegisterPublicKeyFor u _ => Some u
  | _ => None
  end.

(** Some field of the request body is missing or falsy. *)
Definition incomplete (request : Relay.RequestBody) : bool :=
  negb (Relay.truthy (Relay.recipientAddress request))
  || negb (Relay.truthy (Relay.ipfsHash request))
  || negb (Relay.truthy (Relay.userAddress request)).

(** * The other relay endpoints and the client services

    The [register-key] and [get-public-key] route handlers, and the
    services of the web client that call the endpoints and the contract
    binding.  They run in the monad of the send-email handler, made
    generic in the kind of interaction recorded, with [throw] and
    [catch]. *)

Module App.

Inductive attempt (E A : Type) :=
| Done (a : A) (trace : list E)
| Threw (t : Relay.Thrown) (trace : list E).
Arguments Done {E A} a trace.
Arguments Threw {E A} t trace.

Definition T (E A : Type) : Type := list E → attempt E A.

Definition pure {E A} (a : A) : T E A := λ tr, Done a tr.

Definition andThen {E A B} (m : T E A) (k : A → T E B) : T E B := λ tr,
  match m tr with
  | Done a tr' => k a tr'
  | Threw t tr' => Threw t tr'
  end.

(** [throw new Error(message)] *)
Definition throw {E A} (message : string) : T E A := λ tr,
  Threw (Relay.ErrorInstance message) tr.

(** [throw error] of a caught value. *)
Definition rethrow {E A} (t : Relay.Thrown) : T E A := λ tr, Threw t tr.

(** [try { m } catch (error) { handler error }] *)
Definition catch {E A} (m : T E A) (handler : Relay.Thrown → T E A) : T E A := λ tr,
  match m tr with
  | Done a tr' => Done a tr'
  | Threw t tr' => handler t tr'
  end.

(** A call of a collaborator that is not recorded. *)
Definition await {E A} (r : Relay.result A) : T E A := λ tr,
  match r with
  | Relay.Returns a => Done a tr
  | Relay.Throws t => Threw t tr
  end.

(** A call of a collaborator that is recorded, also when it throws. *)
Definition perform {E A} (e : E) (r : Relay.result A) : T E A := λ tr,
  match r with
  | Relay.Returns a => Done a (tr ++ [e])
  | Relay.Throws t => Threw t (tr ++ [e])
  end.

Notation "'let*' x ':=' m 'in' k" := (andThen m (λ x, k))
  (at level 10, x name, m at level 100, k at level 200).

(** [error instanceof Error ? error.message : fallback] *)
Definition message_or (fallback : string) (t : Relay.Thrown) : string :=
  match t with
  | Relay.ErrorInstance message => message
  | Relay.NotAnError _ => fallback
  end.

(** ** [POST /api/relay/register-key] *)

Module RegisterKey.

(** [const { publicKey, userAddress } = await request.json()] *)
Record RequestBody := mkRequestBody {
  publicKey : Relay.JsValue;
  userAddress : Relay.JsValue
}.

Record World := mkWorld {
  request_json : Relay.result RequestBody;
  RELAY_WALLET_PRIVATE_KEY : option string;
  NEXT_PUBLIC_BLOCKDAG_RPC_URL : option string;
  NEXT_PUBLIC_CHAINMAIL_CONTRACT_ADDRESS : option string;
  new_Wallet : string → string → Relay.result string;
  getBalance : string → string → Relay.result N;
  new_Contract : string → string → Relay.result unit;
  (** [await contract.registerPublicKeyFor(userAddress, publicKey)] *)
  contract_registerPublicKeyFor :
    string → Relay.JsValue → Relay.JsValue → Relay.result Relay.TransactionResponse;
  wait : Relay.TransactionResponse → Relay.result Relay.Receipt
}.

Inductive Effect :=
| BalanceQueried (address : string)
| Submitted (contractAddress : string) (user key : Relay.JsValue)
| ReceiptAwaited (tx : Relay.TransactionResponse).

Definition is_submission (e : Effect) : bool :=
  match e with Submitted _ _ _ => true | _ => false end.

Inductive Body :=
| ErrorBody (error : string)
| SuccessBody (transactionHash : string) (gasUsed : string).

Record Response := mkResponse {
  status : N;
  body : Body
}.

Definition json (b : Body) (status : N) : Response := mkResponse status b.

Section Handler.

(** [parseFloat(ethers.formatEther(balance)) < 0.001] *)
Variable below_minimum : N → bool.

Variable w : World.

Definition try_block : T Effect Response :=
  let* request := await (request_json w) in
  if negb (Relay.truthy (publicKey request))
     || negb (Relay.truthy (userAddress request))
  then pure (json (ErrorBody "Missing required fields") 400)
  else
  match Relay.configured (RELAY_WALLET_PRIVATE_KEY w) with
  | None => pure (json (ErrorBody "Relay wallet not configured") 500)
  | Some relayPrivateKey =>
  if bool_decide (relayPrivateKey = "your_relay_wallet_private_key_here")
  then pure (json (ErrorBody "Relay wallet not configured") 500)
  else
  match Relay.configured (NEXT_PUBLIC_BLOCKDAG_RPC_URL w),
        Relay.configured (NEXT_PUBLIC_CHAINMAIL_CONTRACT_ADDRESS w) with
  | Some rpcUrl, Some contractAddress =>
      let* relayWallet := await (new_Wallet w relayPrivateKey rpcUrl) in
      let* balance :=
        perform (BalanceQueried relayWallet) (getBalance w rpcUrl relayWallet) in
      if below_minimum balance
      then pure (json (ErrorBody "Relay wallet balance too low") 500)
      else
      let* contract := await (new_Contract w contractAddress relayWallet) in
      let* tx :=
        perform (Submitted contractAddress (userAddress request) (publicKey request))
          (contract_registerPublicKeyFor w contractAddress
             (userAddress request) (publicKey request)) in
      let* receipt := perform (ReceiptAwaited tx) (wait w tx) in
      pure (json (SuccessBody (Relay.hash receipt)
                    (pretty (Relay.gasUsed receipt))) 200)
  | _, _ => pure (json (ErrorBody "Blockchain configuration missing") 500)
  end
  end.

Definition POST : Response * list Effect :=
  match try_block [] with
  | Done response trace => (response, trace)
  | Threw error trace =>
      (json (ErrorBody (message_or "Unknown error" error)) 500, trace)
  end.

End Handler.

End RegisterKey.

(** ** [GET /api/relay/get-public-key] *)

Module GetPublicKey.

Record World := mkWorld {
  (** [request.nextUrl.searchParams.get('address')]: [None] for [null]. *)
  address_param : option string;
  NEXT_PUBLIC_BLOCKDAG_RPC_URL : option string;
  NEXT_PUBLIC_CHAINMAIL_CONTRACT_ADDRESS : option string;
  (** [new ethers.Contract(contractAddress, CHAINMAIL_ABI,
      new ethers.JsonRpcProvider(rpcUrl))] *)
  new_Contract : string → string → Relay.result unit;
  (** [await contract.getPublicKey(address)] on that binding. *)
  contract_getPublicKey : string → string → string → Relay.result string
}.

Inductive Effect :=
| KeyRead (contractAddress rpcUrl address : string).

Inductive Body :=
| ErrorBody (error : string)
| PublicKeyBody (publicKey : string).

Record Response := mkResponse {
  status : N;
  body : Body
}.

Definition json (b : Body) (status : N) : Response := mkResponse status b.

Section Handler.

Variable w : World.

Definition try_block : T Effect Response :=
  match Relay.configured (address_param w) with
  | None => pure (json (ErrorBody "Missing address parameter") 400)
  | Some address =>
  match Relay.configured (NEXT_PUBLIC_BLOCKDAG_RPC_URL w),
        Relay.configured (NEXT_PUBLIC_CHAINMAIL_CONTRACT_ADDRESS w) with
  | Some rpcUrl, Some contractAddress =>
      let* contract := await (new_Contract w contractAddress rpcUrl) in
      let* publicKey :=
        perform (KeyRead contractAddress rpcUrl address)
          (contract_getPublicKey w contractAddress rpcUrl address) in
      pure (json (PublicKeyBody publicKey) 200)
  | _, _ => pure (json (ErrorBody "Blockchain configuration missing") 500)
  end
  end.

Definition GET : Response * list Effect :=
  match try_block [] with
  | Done response trace => (response, trace)
  | Threw error trace =>
      (json (ErrorBody (message_or "Unknown error" error)) 500, trace)
  end.

End Handler.

End GetPublicKey.

(** ** [BlockchainService], the client's access to the ledger *)

Module BlockchainService.

(** [private static getContract()]: the binding to the configured
    contract, read-only. *)
Definition getContract {E} (contractAddress : option string)
    (new_Contract : string → Relay.result unit) : T E string :=
  match Relay.configured contractAddress with
  | None =>
      throw "Contract address not configured. Please set NEXT_PUBLIC_CHAINMAIL_CONTRACT_ADDRESS in .env.local and restart the dev server."
  | Some address =>
      let* contract := await (new_Contract address) in
      pure address
  end.

(** What [fetch] resolves to, as far as the callers look at it: [ok] and
    the parsed body, with a body of type [B]. *)
Record HttpResponse (B : Type) := mkHttpResponse {
  ok : bool;
  json : Relay.result B
}.
Arguments mkHttpResponse {B} ok json.
Arguments ok {B} h.
Arguments json {B} h.

(** *** [getPublicKey] *)

Record KeyWorld := mkKeyWorld {
  (** [typeof fetch !== 'undefined'] *)
  fetch_defined : bool;
  (** [await fetch(url)]; the body is [data?.publicKey], [None] when the
      body has no such field. *)
  fetch_key : string → Relay.result (HttpResponse (option string));
  NEXT_PUBLIC_CHAINMAIL_CONTRACT_ADDRESS : option string;
  new_Contract : string → Relay.result unit;
  (** [await contract.getPublicKey(address)] *)
  contract_getPublicKey : string → string → Relay.result string
}.

Inductive KeyEffect :=
| ApiAsked (url : string)
| ContractRead (contractAddress address : string).

(** The inner [try]: [Some key] when the endpoint answered with a key
    that is not empty, [None] in every other case, a failure included. *)
Definition ask_relay (w : KeyWorld) (address : string) : T KeyEffect (option string) :=
  if fetch_defined w then
    catch
      (let url := "/api/relay/get-public-key?address=" +:+ address in
       let* response := perform (ApiAsked url) (fetch_key w url) in
       if ok response then
         let* data := await (json response) in
         match data with
         | Some publicKey =>
             if 0 <? bytes_length publicKey then pure (Some publicKey) else pure None
         | None => pure None
         end
       else pure None)
      (λ apiError, pure None)
  else pure None.

Definition getPublicKey (w : KeyWorld) (address : string) : T KeyEffect string :=
  catch
    (let* fromRelay := ask_relay w address in
     match fromRelay with
     | Some publicKey => pure publicKey
     | None =>
         let* contract :=
           getContract (NEXT_PUBLIC_CHAINMAIL_CONTRACT_ADDRESS w) (new_Contract w) in
         let* publicKey :=
           perform (ContractRead contract address)
             (contract_getPublicKey w contract address) in
         pure publicKey
     end)
    (λ error, throw ("Failed to fetch public key: " +:+ message_or "Unknown error" error)).

(** *** [logEmailSendRelay] *)

Record SendResult := mkSendResult {
  emailId : N;
  transactionHash : string;
  gasUsed : N
}.

Record SendWorld := mkSendWorld {
  (** [await fetch('/api/relay/send-email', { method: 'POST', body:
      JSON.stringify({ recipientAddress, ipfsHash, userAddress }) })] *)
  fetch_send : string → string → string → Relay.result (HttpResponse Relay.Body);
  (** [BigInt(s)] of a string. *)
  BigInt : string → Relay.result N
}.

Inductive SendEffect :=
| RelayAsked (recipientAddress ipfsHash userAddress : string).

(** [error.error || 'Relay transaction failed'] on the parsed body. *)
Definition error_of (body : Relay.Body) : string :=
  match body with
  | Relay.ErrorBody error =>
      if bool_decide (error = "") then "Relay transaction failed" else error
  | Relay.SuccessBody _ _ _ => "Relay transaction failed"
  end.

Definition logEmailSendRelay (w : SendWorld)
    (recipientAddress ipfsHash userAddress : string) : T SendEffect SendResult :=
  catch
    (let* response :=
       perform (RelayAsked recipientAddress ipfsHash userAddress)
         (fetch_send w recipientAddress ipfsHash userAddress) in
     if negb (ok response) then
       let* error := await (json response) in
       throw (error_of error)
     else
       let* result := await (json response) in
       match result with
       | Relay.SuccessBody emailId transactionHash gasUsed =>
           let* gas := await (BigInt w gasUsed) in
           pure (mkSendResult emailId transactionHash gas)
       | Relay.ErrorBody _ =>
           (* [BigInt(undefined)] *)
           throw "Cannot convert undefined to a BigInt"
       end)
    (λ error, throw ("Failed to send via relay: " +:+ message_or "Unknown error" error)).

(** The answer of the send-email handler as [fetch] delivers it. *)
Definition delivered (response : Relay.Response) : HttpResponse Relay.Body :=
  mkHttpResponse
    ((200 <=? Relay.status response) && (Relay.status response <=? 299))
    (Relay.Returns (Relay.body response)).

End BlockchainService.

(** ** [EmailService], the client's mail operations *)

Module EmailService.

Record OnChainEmail := mkOnChainEmail {
  sender : string;
  recipient : string;
  ipfsHash : string;
  timestamp : N;
  isImmutable : bool
}.

Record EmailMetadata := mkEmailMetadata {
  meta_emailId : N;
  meta_from : string;
  meta_to : string;
  meta_timestamp : N;
  meta_transactionHash : string;
  meta_ipfsHash : string;
  meta_isImmutable : bool
}.

(** The object built for an id from what [BlockchainService.getEmail]
    returned. *)
Definition metadata (emailId : N) (onChainEmail : OnChainEmail) : EmailMetadata :=
  mkEmailMetadata emailId (sender onChainEmail) (recipient onChainEmail)
    (timestamp onChainEmail) "" (ipfsHash onChainEmail) (isImmutable onChainEmail).

Record Ledger := mkLedger {
  (** [await BlockchainService.getRecipientEmails(address)] *)
  getRecipientEmails_of : string → Relay.result (list N);
  (** [await BlockchainService.getEmail(emailId)] *)
  getEmail_of : N → Relay.result OnChainEmail
}.

Inductive ReadEffect :=
| IndexRead (address : string)
| EmailRead (emailId : N).

(** One [getEmail] per id, in the order of the ids, stopping at the first
    that fails.  This is the [for] loop of [poll]; under [Promise.all] in
    [getRecipientEmails] every read is started, and only the result is the
    same: all the entries in the order of the ids, or a failure. *)
Fixpoint fetch_all (w : Ledger) (emailIds : list N) : T ReadEffect (list EmailMetadata) :=
  match emailIds with
  | [] => pure []
  | emailId :: rest =>
      let* onChainEmail := perform (EmailRead emailId) (getEmail_of w emailId) in
      let* others := fetch_all w rest in
      pure (metadata emailId onChainEmail :: others)
  end.

(** [emails.sort((a, b) => b.timestamp - a.timestamp)]: the stable sort
    of the language, largest timestamp first. *)
Fixpoint insert_newest_first (x : EmailMetadata) (l : list EmailMetadata)
  : list EmailMetadata :=
  match l with
  | [] => [x]
  | y :: l' =>
      if meta_timestamp y <=? meta_timestamp x then x :: y :: l'
      else y :: insert_newest_first x l'
  end.

Definition sort_newest_first (l : list EmailMetadata) : list EmailMetadata :=
  foldr insert_newest_first [] l.

Definition getRecipientEmails (w : Ledger) (recipientAddress : string)
  : T ReadEffect (list EmailMetadata) :=
  catch
    (let* emailIds :=
       perform (IndexRead recipientAddress) (getRecipientEmails_of w recipientAddress) in
     let* emails := fetch_all w emailIds in
     pure (sort_newest_first emails))
    (λ error, pure []).

(** *** [pollForNewEmails]

    One run of [poll]: from the value of [lastEmailCount] to its new value
    and the argument [callback] is called with, if it is called. *)
Definition poll (w : Ledger) (recipientAddress : string) (lastEmailCount : nat)
  : nat * option (list EmailMetadata) :=
  match getRecipientEmails_of w recipientAddress with
  | Relay.Throws _ => (lastEmailCount, None)
  | Relay.Returns emailIds =>
      if (lastEmailCount <? length emailIds)%nat then
        let newEmailIds := drop lastEmailCount emailIds in
        let lastEmailCount' := length emailIds in
        match fetch_all w newEmailIds [] with
        | Done newEmails _ => (lastEmailCount', Some newEmails)
        | Threw _ _ => (lastEmailCount', None)
        end
      else (lastEmailCount, None)
  end.

(** The successive runs of [poll], one per state of the ledger, and the
    batches handed to [callback]. *)
Fixpoint polls (ws : list Ledger) (recipientAddress : string) (lastEmailCount : nat)
  : list (list EmailMetadata) :=
  match ws with
  | [] => []
  | w :: rest =>
      let '(lastEmailCount', batch) := poll w recipientAddress lastEmailCount in
      match batch with
      | Some newEmails => [newEmails]
      | None => []
      end ++ polls rest recipientAddress lastEmailCount'
  end.

(** *** [sendEmail] *)

Record SendWorld := mkSendWorld {
  (** [await BlockchainService.getPublicKey(to)] *)
  getPublicKey : string → Relay.result string;
  (** [await EncryptionService.encryptEmail(subject, body, sender, to, key)] *)
  encryptEmail : string → string → string → string → string → Relay.result string;
  (** [(await IPFSService.uploadToIPFS(content)).ipfsHash] *)
  uploadToIPFS : string → Relay.result string;
  (** [await BlockchainService.logEmailSendRelay(to, ipfsHash, sender)] *)
  logEmailSendRelay :
    string → string → string → Relay.result BlockchainService.SendResult
}.

Inductive SendEffect :=
| KeyFetched (address : string)
| Encrypted (subject body sender recipient key : string)
| Uploaded (content : string)
| Logged (recipient ipfsHash sender : string).


Section SendEmail.

(** [s.trim() === ''] *)
Variable blank : string → bool.

Variable w : SendWorld.



End SendEmail.

End EmailService.

(** ** [WalletService], addresses as mail addresses *)

Module WalletService.

(** [process.env.NEXT_PUBLIC_EMAIL_DOMAIN || 'blockdag.mailchain'] *)
Definition EMAIL_DOMAIN (NEXT_PUBLIC_EMAIL_DOMAIN : option string) : string :=
  default "blockdag.mailchain" (Relay.configured NEXT_PUBLIC_EMAIL_DOMAIN).

(** [s.split('@')[0]]: what comes before the first '@', all of [s] when it
    has none. *)
Fixpoint before_at (s : string) : string :=
  match s with
  | EmptyString => EmptyString
  | String c rest =>
      if Ascii.eqb c "@"%char then EmptyString else String c (before_at rest)
  end.

Fixpoint has_at (s : string) : bool :=
  match s with
  | EmptyString => false
  | String c rest => Ascii.eqb c "@"%char || has_at rest
  end.

Section Addresses.

(** [ethers.isAddress] *)
Variable isAddress : string → bool.

Variable NEXT_PUBLIC_EMAIL_DOMAIN : option string.

Definition formatAsEmail (address : string) : string :=
  address +:+ "@" +:+ EMAIL_DOMAIN NEXT_PUBLIC_EMAIL_DOMAIN.

Definition extractAddressFromEmail (email : string) : Relay.result string :=
  let address := before_at email in
  if negb (isAddress address)
  then Relay.Throws (Relay.ErrorInstance "Invalid email format")
  else Relay.Returns address.

End Addresses.

End WalletService.

(** ** [BlockchainService.startPollingForEmails], polling by block range *)

Module EventPolling.

Record EmailEvent := mkEmailEvent {
  emailId : N;
  sender : string;
  recipient : string;
  ipfsHash : string;
  timestamp : N;
  transactionHash : string
}.

(** An entry of what [contract.queryFilter] returns: the block it is in,
    its decoded arguments when it has them, and its transaction. *)
Record EventLog := mkEventLog {
  blockNumber : N;
  args : option (N * string * string * string * N);
  log_transactionHash : string
}.


Record Node := mkNode {
  NEXT_PUBLIC_CHAINMAIL_CONTRACT_ADDRESS : option string;
  new_Contract : string → Relay.result unit;
  (** [WalletService.getProvider()] *)
  getProvider : Relay.result unit;
  (** [await provider.getBlockNumber()] *)
  getBlockNumber : Relay.result N;
  (** [await contract.queryFilter(contract.filters.EmailSent(null, null,
      recipientAddress), fromBlock, toBlock)] *)
  queryFilter : string → string → N → N → Relay.result (list EventLog)
}.

(** [initializePolling]: the value [lastProcessedBlock] starts with. *)
Definition initializePolling (w : Node) : N :=
  match (let* provider := await (getProvider w) in
         await (E := EmailEvent) (getBlockNumber w)) [] with
  | Done currentBlock _ => currentBlock
  | Threw _ _ => 0
  end.

Section Tick.

(** The caller's callback: it returns or throws; its calls are the
    effects recorded. *)
Variable callback : EmailEvent → Relay.result unit.

Variable recipientAddress : string.




End Tick.

End EventPolling.

(** ** [RelayService], the relay account as a service *)

Module RelayService.

Record Wallet := mkWallet {
  address : string;
  (** [wallet.provider], the RPC endpoint it is connected to. *)
  provider : option string
}.

(** The static fields of the class. *)
Record Fields := mkFields {
  relayWallet : option Wallet;
  provider_field : option string
}.

Record World := mkWorld {
  RELAY_WALLET_PRIVATE_KEY : option string;
  NEXT_PUBLIC_BLOCKDAG_RPC_URL : option string;
  new_JsonRpcProvider : string → Relay.result unit;
  (** [new ethers.Wallet(key, provider)], by its address. *)
  new_Wallet : string → string → Relay.result string;
  (** [await wallet.provider.getBalance(wallet.address)], before and after
      the transaction of the call is confirmed. *)
  getBalance_of : bool → string → Relay.result N;
  new_Contract : string → Wallet → Relay.result unit;
  (** [await contract[functionName].estimateGas(...args)] *)
  estimateGas : string → string → list Relay.JsValue → Relay.result N;
  (** [await contract[functionName](...args)] *)
  send : string → string → list Relay.JsValue → Relay.result Relay.TransactionResponse;
  wait : Relay.TransactionResponse → Relay.result Relay.Receipt
}.

Inductive Effect :=
| BalanceQueried (confirmed : bool) (address : string)
| GasEstimated (functionName : string) (args : list Relay.JsValue)
| Submitted (functionName : string) (args : list Relay.JsValue)
| ReceiptAwaited (tx : Relay.TransactionResponse).

(** A method of the class: it reads and writes the static fields, calls
    collaborators, and returns or throws. *)
Definition S (A : Type) : Type :=
  Fields → list Effect → Relay.result A * Fields * list Effect.

Definition ret {A} (a : A) : S A := λ fields trace, (Relay.Returns a, fields, trace).

Definition bind {A B} (m : S A) (k : A → S B) : S B := λ fields trace,
  match m fields trace with
  | (Relay.Returns a, fields', trace') => k a fields' trace'
  | (Relay.Throws t, fields', trace') => (Relay.Throws t, fields', trace')
  end.

Definition throw_new_Error {A} (message : string) : S A := λ fields trace,
  (Relay.Throws (Relay.ErrorInstance message), fields, trace).



Definition call {A} (r : Relay.result A) : S A := λ fields trace, (r, fields, trace).

Definition recorded {A} (e : Effect) (r : Relay.result A) : S A := λ fields trace,
  (r, fields, trace ++ [e]).

Definition read_fields : S Fields := λ fields trace, (Relay.Returns fields, fields, trace).

Definition write_fields (fields : Fields) : S unit := λ _ trace,
  (Relay.Returns tt, fields, trace).

Notation "'let+' x ':=' m 'in' k" := (bind m (λ x, k))
  (at level 10, x name, m at level 100, k at level 200).

Section Methods.

(** [parseFloat(balance) < 0.001] on [ethers.formatEther] of the balance. *)
Variable below_minimum : N → bool.

Variable w : World.

Definition initializeRelayWallet : S Wallet :=
  let+ fields := read_fields in
  match relayWallet fields with
  | Some wallet => ret wallet
  | None =>
  match Relay.configured (RELAY_WALLET_PRIVATE_KEY w) with
  | None => throw_new_Error "RELAY_WALLET_PRIVATE_KEY not configured in .env.local"
  | Some relayPrivateKey =>
  if bool_decide (relayPrivateKey = "your_relay_wallet_private_key_here")
  then throw_new_Error "RELAY_WALLET_PRIVATE_KEY not configured in .env.local"
  else
  match Relay.configured (NEXT_PUBLIC_BLOCKDAG_RPC_URL w) with
  | None => throw_new_Error "NEXT_PUBLIC_BLOCKDAG_RPC_URL not configured"
  | Some rpcUrl =>
      let+ made := call (new_JsonRpcProvider w rpcUrl) in
      let+ stored := write_fields (mkFields (relayWallet fields) (Some rpcUrl)) in
      let+ walletAddress := call (new_Wallet w relayPrivateKey rpcUrl) in
      let wallet := mkWallet walletAddress (Some rpcUrl) in
      let+ stored' := write_fields (mkFields (Some wallet) (Some rpcUrl)) in
      ret wallet
  end
  end
  end.

Definition getRelayWallet : S Wallet := initializeRelayWallet.

(** [getBalance], by the balance before [formatEther]. *)
Definition getBalance (confirmed : bool) : S N :=
  let+ wallet := getRelayWallet in
  match provider wallet with
  | None => throw_new_Error "Provider not initialized"
  | Some _ =>
      recorded (BalanceQueried confirmed (address wallet))
        (getBalance_of w confirmed (address wallet))
  end.


End Methods.

End RelayService.

End App.

(** Whether a run of an endpoint reached the submission. *)
Definition send_email_submits (trace : list Relay.Effect) : bool :=
  existsb Relay.is_submission trace.
Definition register_key_submits (trace : list App.RegisterKey.Effect) : bool :=
  existsb App.RegisterKey.is_submission trace.

(** The error message of an answer, if it is an error. *)
Definition send_email_error (r : Relay.Response) : option string :=
  match Relay.body r with
  | Relay.ErrorBody error => Some error
  | Relay.SuccessBody _ _ _ => None
  end.
Definition register_key_error (r : App.RegisterKey.Response) : option string :=
  match App.RegisterKey.body r with
  | App.RegisterKey.ErrorBody error => Some error
  | App.RegisterKey.SuccessBody _ _ => None
  end.

(** The two endpoints run in the same environment: same configuration,
    same wallet, provider and contract bindings. *)
Definition same_environment (w : Relay.World) (w' : App.RegisterKey.World) : Prop :=
  Relay.RELAY_WALLET_PRIVATE_KEY w = App.RegisterKey.RELAY_WALLET_PRIVATE_KEY w'
  ∧ Relay.NEXT_PUBLIC_BLOCKDAG_RPC_URL w = App.RegisterKey.NEXT_PUBLIC_BLOCKDAG_RPC_URL w'
  ∧ Relay.NEXT_PUBLIC_CHAINMAIL_CONTRACT_ADDRESS w
    = App.RegisterKey.NEXT_PUBLIC_CHAINMAIL_CONTRACT_ADDRESS w'
  ∧ Relay.new_Wallet w = App.RegisterKey.new_Wallet w'
  ∧ Relay.getBalance w = App.RegisterKey.getBalance w'
  ∧ Relay.new_Contract w = App.RegisterKey.new_Contract w'.

(** A register-key request with both fields present. *)
Definition complete_registration (request : App.RegisterKey.RequestBody) : bool :=
  Relay.truthy (App.RegisterKey.publicKey request)
  && Relay.truthy (App.RegisterKey.userAddress request).

(** A world of the register-key endpoint in the environment of
    [sample_world]. *)
Definition sample_register_world (balance : Relay.result N) : App.RegisterKey.World :=
  App.RegisterKey.mkWorld
    (Relay.Returns (App.RegisterKey.mkRequestBody
       (Relay.JsString "KEY") (Relay.JsString "0xA")))
    (Some "0xkey") (Some "http://rpc") (Some "0xC")
    (λ _ _, Relay.Returns "0xRelay")
    (λ _ _, balance)
    (λ _ _, Relay.Returns tt)
    (λ _ _ _, Relay.Returns (Relay.mkTransactionResponse "0xtx2"))
    (λ _, Relay.Returns (Relay.mkReceipt 8 [] "0xtx2" 30000)).

(** A client of [getPublicKey] whose relay endpoint answers [response]
    and whose own contract address is [contractAddress]. *)
Definition sample_key_world (response : Relay.result (App.BlockchainService.HttpResponse (option string)))
    (contractAddress : option string) : App.BlockchainService.KeyWorld :=
  App.BlockchainService.mkKeyWorld true (λ _, response) contractAddress
    (λ _, Relay.Returns tt) (λ _ _, Relay.Returns "").

(** A client of [logEmailSendRelay] whose [fetch] reaches the send-email
    handler run in world [w]. *)
Definition client_of (below_minimum : N → bool) (EmailSent_topic : string)
    (Number : N → N) (w : Relay.World) (BigInt : string → Relay.result N)
  : App.BlockchainService.SendWorld :=
  App.BlockchainService.mkSendWorld
    (λ _ _ _, Relay.Returns
       (App.BlockchainService.delivered
          (fst (Relay.POST below_minimum EmailSent_topic Number w))))
    BigInt.

(** A ledger whose reads for [address] all succeed, [emailIds] being the
    ids it lists. *)
Definition healthy (address : string) (w : App.EmailService.Ledger)
    (emailIds : list N) : Prop :=
  App.EmailService.getRecipientEmails_of w address = Relay.Returns emailIds
  ∧ ∀ emailId, emailId ∈ emailIds →
      ∃ onChainEmail, App.EmailService.getEmail_of w emailId = Relay.Returns onChainEmail.

(** Successive lists of an append-only index: each extends the one
    before. *)
Fixpoint growing (previous : list N) (lists : list (list N)) : Prop :=
  match lists with
  | [] => True
  | emailIds :: rest => previous `prefix_of` emailIds ∧ growing emailIds rest
  end.

(** Largest timestamp first. *)
Definition newer_or_equal (a b : App.EmailService.EmailMetadata) : Prop :=
  App.EmailService.meta_timestamp b ≤ App.EmailService.meta_timestamp a.


Definition sample_ledger (emailIds : list N) (unreadable : list N)
  : App.EmailService.Ledger :=
  App.EmailService.mkLedger
    (λ _, Relay.Returns emailIds)
    (λ emailId,
       if bool_decide (emailId ∈ unreadable)
       then Relay.Throws (Relay.ErrorInstance "Failed to fetch email")
       else Relay.Returns
              (App.EmailService.mkOnChainEmail "0xA" "0xB" "cid" (100 - emailId) true)).







(** A configured relay service whose collaborators all answer, but for the
    balance query after the confirmation, which answers [closing]. *)
Definition sample_service (closing : Relay.result N) : App.RelayService.World :=
  App.RelayService.mkWorld (Some "0xkey") (Some "http://rpc")
    (λ _, Relay.Returns tt) (λ _ _, Relay.Returns "0xRelay")
    (λ confirmed _, if confirmed then closing else Relay.Returns (10 ^ 18))
    (λ _ _, Relay.Returns tt) (λ _ _ _, Relay.Returns 21000)
    (λ _ _ _, Relay.Returns (Relay.mkTransactionResponse "0xt1"))
    (λ _, Relay.Returns (Relay.mkReceipt 7 [] "0xt1" 21000)).

(** The same service with nothing configured. *)
Definition unconfigured_service : App.RelayService.World :=
  App.RelayService.mkWorld None None
    (λ _, Relay.Returns tt) (λ _ _, Relay.Returns "0xRelay")
    (λ _ _, Relay.Returns (10 ^ 18))
    (λ _ _, Relay.Returns tt) (λ _ _ _, Relay.Returns 21000)
    (λ _ _ _, Relay.Returns (Relay.mkTransactionResponse "0xt1"))
    (λ _, Relay.Returns (Relay.mkReceipt 7 [] "0xt1" 21000)).

(** The relay endpoint gives the client the key [key] of [address]:
    [fetch] exists, the request is answered OK, and the body read has a
    [publicKey] that is not empty. *)
Definition relay_gives (w : App.BlockchainService.KeyWorld) (address key : string)
  : Prop :=
  App.BlockchainService.fetch_defined w = true
  ∧ ∃ response,
      App.BlockchainService.fetch_key w ("/api/relay/get-public-key?address=" +:+ address)
        = Relay.Returns response
      ∧ App.BlockchainService.ok response = true
      ∧ App.BlockchainService.json response = Relay.Returns (Some key)
      ∧ key ≠ "".

(** * Properties of the contract *)

(** ** What each primitive does, in closed form *)

Lemma _logEmail_unfold env s r h st :
  _logEmail env s r h st =
    if bool_decide (s = 0) then Reverted (Error "Invalid sender address") st
    else if bool_decide (r = 0) then Reverted (Error "Invalid recipient address") st
    else if negb (0 <? bytes_length h) then Reverted (Error "IPFS hash cannot be empty") st
    else if bool_decide (emailCount st = MAX_UINT256) then Reverted (Panic 17) st
    else Success (emailCount st + 1) (logged env s r h st)
           [EmailSent (emailCount st + 1) s r h (block_timestamp env)].
Proof.
  unfold _logEmail, increment_emailCount, bind, require, get, modify, emit, ret, panic.
  repeat case_bool_decide; simpl; try reflexivity;
    destruct (0 <? bytes_length h); simpl; try reflexivity;
    rewrite ?bool_decide_eq_true_2, ?bool_decide_eq_false_2 by assumption;
    reflexivity.
Qed.

Lemma _setPublicKey_unfold env u k st :
  _setPublicKey env u k st =
    if bool_decide (u = 0) then Reverted (Error "Invalid user address") st
    else if negb (0 <? bytes_length k) then Reverted (Error "Public key cannot be empty") st
    else Success tt (set_publicKeys (insert u k) st)
           [PublicKeyRegistered u k (block_timestamp env)].
Proof.
  unfold _setPublicKey, bind, require, modify, emit.
  case_bool_decide; simpl; try reflexivity.
  destruct (0 <? bytes_length k); reflexivity.
Qed.

Lemma onlyRelay_unfold {A} env (body : M A) st :
  onlyRelay env body st =
    if bool_decide (msg_sender env = relayAddress st) then body st
    else Reverted (Error "Not authorized relay") st.
Proof.
  unfold onlyRelay, bind, get, require.
  case_bool_decide; simpl; [| reflexivity].
  destruct (body st); reflexivity.
Qed.

Lemma onlyOwner_unfold {A} env (body : M A) st :
  onlyOwner env body st =
    if bool_decide (msg_sender env = owner st) then body st
    else Reverted (Error "Not contract owner") st.
Proof.
  unfold onlyOwner, bind, get, require.
  case_bool_decide; simpl; [| reflexivity].
  destruct (body st); reflexivity.
Qed.

Lemma setRelayAddress_unfold env a st :
  setRelayAddress env a st =
    if bool_decide (msg_sender env = owner st) then
      if bool_decide (a = 0) then Reverted (Error "Invalid relay address") st
      else Success tt (set_relayAddress a st) []
    else Reverted (Error "Not contract owner") st.
Proof.
  unfold setRelayAddress. rewrite onlyOwner_unfold.
  unfold bind, require, modify. repeat case_bool_decide; reflexivity.
Qed.

Lemma transferOwnership_unfold env a st :
  transferOwnership env a st =
    if bool_decide (msg_sender env = owner st) then
      if bool_decide (a = 0) then Reverted (Error "Invalid owner address") st
      else Success tt (set_owner a st) []
    else Reverted (Error "Not contract owner") st.
Proof.
  unfold transferOwnership. rewrite onlyOwner_unfold.
  unfold bind, require, modify. repeat case_bool_decide; reflexivity.
Qed.

Lemma bytes_length_pos s : (0 <? bytes_length s) = negb (bool_decide (s = "")).
Proof.
  unfold bytes_length. destruct s as [|c s].
  - reflexivity.
  - rewrite bool_decide_eq_false_2 by discriminate. apply N.ltb_lt. simpl. lia.
Qed.

Lemma logged_emails_at_new env s r h st :
  emails_at (logged env s r h st) (emailCount st + 1)
  = mkEmail s r h (block_timestamp env) true.
Proof. unfold emails_at, logged; simpl. by rewrite lookup_insert_eq. Qed.

Lemma logged_emails_at_old env s r h st id :
  id ≠ emailCount st + 1 →
  emails_at (logged env s r h st) id = emails_at st id.
Proof. intros Hne. unfold emails_at, logged; simpl. by rewrite lookup_insert_ne. Qed.

Lemma getEmail_unfold id st :
  getEmail id st =
    if (0 <? id) && (id <=? emailCount st)
    then Success (sender (emails_at st id), recipient (emails_at st id),
                  ipfsHash (emails_at st id), timestamp (emails_at st id),
                  isImmutable (emails_at st id)) st []
    else Reverted (Error "Invalid email ID") st.
Proof.
  unfold getEmail, bind, get, require, ret.
  destruct ((0 <? id) && (id <=? emailCount st)); reflexivity.
Qed.

(** A submission whose three checks pass succeeds below the counter's limit. *)
Lemma _logEmail_valid env s r h st :
  s ≠ 0 → r ≠ 0 → h ≠ "" → emailCount st < MAX_UINT256 →
  _logEmail env s r h st =
    Success (emailCount st + 1) (logged env s r h st)
      [EmailSent (emailCount st + 1) s r h (block_timestamp env)].
Proof.
  intros Hs Hr Hh Hc. rewrite _logEmail_unfold, bytes_length_pos.
  rewrite !bool_decide_eq_false_2 by (assumption || lia). reflexivity.
Qed.


(** ** The effect of one transaction *)

Lemma returning_unfold {A} (f : A → Returned) (m : M A) st :
  returning f m st =
    match m st with
    | Success a st' log => Success (f a) st' log
    | Reverted e dirty => Reverted e dirty
    end.
Proof.
  unfold returning, bind, ret. destruct (m st); [| reflexivity].
  by rewrite app_nil_r.
Qed.

(** Splits a call of the public surface into the branches its checks take. *)
Ltac contract_cases :=
  rewrite ?returning_unfold;
  unfold logSend, logSendFor, registerPublicKey, registerPublicKeyFor;
  rewrite ?onlyRelay_unfold, ?setRelayAddress_unfold, ?transferOwnership_unfold,
    ?_logEmail_unfold, ?_setPublicKey_unfold, ?bytes_length_pos;
  repeat case_bool_decide; simpl.

(** No check of the contract comes after a write: whenever a call fails,
    the storage at the point of failure is the storage the call started
    from. *)
Lemma dispatch_reverted_clean env c st e dirty :
  dispatch env c st = Reverted e dirty → dirty = st.
Proof.
  destruct c; simpl; contract_cases; intros Hrun; by inversion Hrun.
Qed.

Lemma execute_reverted st tx :
  is_reverted (receipt st tx) = true → execute st tx = st.
Proof. unfold execute. by destruct (receipt st tx). Qed.

Lemma execute_step st tx : step st (execute st tx).
Proof.
  unfold execute, receipt.
  destruct tx as [env c]; destruct c; simpl; contract_cases;
    try apply step_rejected;
    try (apply step_logged; assumption);
    try (apply step_key; assumption);
    try (apply step_relay; assumption);
    try (apply step_owner; assumption).
Qed.

Lemma deploy_unfold env a :
  deploy env a = mkChainMail ∅ 0 ∅ ∅ ∅ (msg_sender env) a.
Proof. reflexivity. Qed.

Lemma run_snoc st txs tx : run st (txs ++ [tx]) = execute (run st txs) tx.
Proof. unfold run. by rewrite fold_left_app. Qed.

Lemma run_cons st tx txs : run st (tx :: txs) = run (execute st tx) txs.
Proof. reflexivity. Qed.

(** Induction over the storages reachable from a deployment. *)
Lemma reachable_ind (P : ChainMail → Prop) env a :
  P (deploy env a) →
  (∀ st st', P st → step st st' → P st') →
  ∀ txs, P (run (deploy env a) txs).
Proof.
  intros H0 Hstep txs. induction txs as [| tx txs IH] using rev_ind.
  - exact H0.
  - rewrite run_snoc. eapply Hstep; [exact IH | apply execute_step].
Qed.

(** The counter of a reachable storage stays within [uint256]. *)
Lemma reachable_in_range env a txs :
  emailCount (run (deploy env a) txs) ≤ MAX_UINT256.
Proof.
  apply (reachable_ind (λ st, emailCount st ≤ MAX_UINT256)).
  - rewrite deploy_unfold; simpl. unfold MAX_UINT256. lia.
  - intros st st' IH Hs. destruct Hs; simpl; lia.
Qed.

(** ** Allocation of ids *)

Lemma step_records_dense st st' : records_dense st → step st st' → records_dense st'.
Proof.
  intros Hd Hs k. destruct (Hd k) as [Hin Hout].
  destruct Hs; simpl; try (split; assumption).
  split.
  - intros Hk. destruct (decide (k = emailCount st + 1)) as [-> | Hne].
    + rewrite lookup_insert_eq. eexists; split; [reflexivity |].
      by repeat split.
    + rewrite lookup_insert_ne by done. apply Hin. lia.
  - intros Hk. rewrite lookup_insert_ne by lia. apply Hout. lia.
Qed.

Lemma reachable_records_dense env a txs : records_dense (run (deploy env a) txs).
Proof.
  apply (reachable_ind records_dense).
  - intros k. rewrite deploy_unfold; simpl. split; [lia | by rewrite lookup_empty].
  - apply step_records_dense.
Qed.

Lemma execute_emailCount st tx :
  emailCount (execute st tx)
  = emailCount st
    + (if is_submission (tx_call tx) && negb (is_reverted (receipt st tx))
       then 1 else 0).
Proof.
  unfold execute, receipt.
  destruct tx as [env c]; destruct c; simpl; contract_cases; lia.
Qed.

Lemma receipt_returned st tx :
  match receipt st tx with
  | Success (Id n) _ _ => [n]
  | _ => []
  end
  = if is_submission (tx_call tx) && negb (is_reverted (receipt st tx))
    then [emailCount st + 1] else [].
Proof.
  unfold receipt.
  destruct tx as [env c]; destruct c; simpl; contract_cases; reflexivity.
Qed.

Lemma emailCount_run st txs :
  emailCount (run st txs) = emailCount st + N.of_nat (successful_submissions st txs).
Proof.
  revert st. induction txs as [| tx txs IH]; intros st.
  - simpl. lia.
  - rewrite run_cons, IH, execute_emailCount. simpl.
    destruct (is_submission (tx_call tx) && negb (is_reverted (receipt st tx))); lia.
Qed.

Lemma returned_ids_run st txs :
  returned_ids st txs
  = (λ i, emailCount st + N.of_nat i) <$> seq 1 (successful_submissions st txs).
Proof.
  revert st. induction txs as [| tx txs IH]; intros st.
  - reflexivity.
  - simpl. rewrite receipt_returned, IH, execute_emailCount.
    destruct (is_submission (tx_call tx) && negb (is_reverted (receipt st tx))); simpl.
    + f_equal. rewrite <- (fmap_S_seq 1), <- list_fmap_compose.
      apply list_fmap_ext. intros _ i _. simpl. lia.
    + apply list_fmap_ext. intros _ i _. lia.
Qed.

Section Allocation.

Variable env : Env.
Variable relay : address.
Variable txs : list Tx.

(** C2.  After any history of calls on a fresh deployment in which [n]
    submissions ([logSend] or [logSendFor], from any callers, mixed with
    any other calls) succeeded: [getTotalEmails] returns [n]; the ids those
    submissions returned are [1, 2, ..., n] in that order; [getEmail k]
    succeeds with a created record for every [1 <= k <= n]; and
    [getEmail] rejects [0] and [n + 1]. *)
Theorem ids_dense_in_order :
  let st0 := deploy env relay in
  let st := run st0 txs in
  let n := N.of_nat (successful_submissions st0 txs) in
  getTotalEmails st = Success n st [] ∧
  returned_ids st0 txs = ids_upto n ∧
  (∀ k, 1 ≤ k ≤ n →
     ∃ s r h t, getEmail k st = Success (s, r, h, t, true) st []
                ∧ s ≠ 0 ∧ r ≠ 0 ∧ h ≠ "") ∧
  getEmail 0 st = Reverted (Error "Invalid email ID") st ∧
  getEmail (n + 1) st = Reverted (Error "Invalid email ID") st.
Proof.
  intros st0 st n.
  assert (Hn : emailCount st = n).
  { subst st n. rewrite emailCount_run. subst st0. rewrite deploy_unfold. simpl. lia. }
  split; [| split; [| split; [| split]]].
  - unfold getTotalEmails, bind, get, ret. simpl. by rewrite Hn.
  - rewrite returned_ids_run. subst st0. rewrite deploy_unfold. simpl.
    unfold ids_upto. subst n. rewrite Nat2N.id.
    apply list_fmap_ext. intros _ i _. lia.
  - intros k Hk. rewrite getEmail_unfold, Hn.
    replace (0 <? k) with true by (symmetry; apply N.ltb_lt; lia).
    replace (k <=? n) with true by (symmetry; apply N.leb_le; lia).
    simpl.
    destruct (reachable_records_dense env relay txs k) as [Hin _].
    fold st0 in Hin. fold st in Hin. rewrite Hn in Hin.
    destruct (Hin Hk) as (e & He & Hs & Hr & Hh & Hi).
    unfold emails_at. rewrite He. simpl. rewrite Hi.
    by eexists _, _, _, _.
  - rewrite getEmail_unfold. reflexivity.
  - rewrite getEmail_unfold, Hn.
    replace (n + 1 <=? n) with false by (symmetry; apply N.leb_gt; lia).
    by rewrite andb_false_r.
Qed.

End Allocation.

Lemma ids_dense_in_order_witness :
  getTotalEmails sample_state = Success 3 sample_state [] ∧
  returned_ids sample_deployment sample_history = [1; 2; 3] ∧
  (∃ s r h t, getEmail 2 sample_state = Success (s, r, h, t, true) sample_state []
              ∧ s ≠ 0 ∧ r ≠ 0 ∧ h ≠ "") ∧
  getEmail 0 sample_state = Reverted (Error "Invalid email ID") sample_state ∧
  getEmail 4 sample_state = Reverted (Error "Invalid email ID") sample_state.
Proof.
  destruct (ids_dense_in_order (mkEnv 10 1000) 20 sample_history)
    as (H1 & H2 & H3 & H4 & H5).
  split; [exact H1 |]. split; [exact H2 |].
  split; [| split; [exact H4 | exact H5]].
  apply (H3 2). vm_compute. split; discriminate.
Defined.

(** The scenario of the specification: on an empty contract, account 11
    sends "cid1" to 12. *)
Example first_submission :
  let st0 := sample_deployment in
  let tx := mkTx (mkEnv 11 1001) (LogSend 12 "cid1") in
  let st := execute st0 tx in
  (∃ log, receipt st0 tx = Success (Id 1) st log) ∧
  getTotalEmails st = Success 1 st [] ∧
  getRecipientEmails 12 st = Success [1] st [] ∧
  getSenderEmails 11 st = Success [1] st [] ∧
  getEmail 2 st = Reverted (Error "Invalid email ID") st.
Proof. cbv zeta. split; [eexists |]; repeat split; vm_compute; reflexivity. Qed.

(** ** Immutability of records, append-only indices *)

Lemma push_at_lookup k x (m : gmap N (list N)) a :
  default [] (push_at k x m !! a)
  = if decide (a = k) then default [] (m !! a) ++ [x] else default [] (m !! a).
Proof.
  unfold push_at. destruct (decide (a = k)) as [-> | Hne].
  - by rewrite lookup_insert_eq.
  - by rewrite lookup_insert_ne.
Qed.

Lemma logged_recipientEmails_at env s r h st a :
  recipientEmails_at (logged env s r h st) a
  = if decide (a = r) then recipientEmails_at st a ++ [emailCount st + 1]
    else recipientEmails_at st a.
Proof. unfold recipientEmails_at, logged; simpl. apply push_at_lookup. Qed.

Lemma logged_senderEmails_at env s r h st a :
  senderEmails_at (logged env s r h st) a
  = if decide (a = s) then senderEmails_at st a ++ [emailCount st + 1]
    else senderEmails_at st a.
Proof. unfold senderEmails_at, logged; simpl. apply push_at_lookup. Qed.

Lemma extends_refl st : extends st st.
Proof. by split. Qed.

Lemma extends_trans st1 st2 st3 : extends st1 st2 → extends st2 st3 → extends st1 st3.
Proof.
  intros [E1 C1 R1 S1] [E2 C2 R2 S2]. split.
  - intros id Hid. rewrite E2 by lia. by apply E1.
  - lia.
  - intros a. etrans; [apply R1 | apply R2].
  - intros a. etrans; [apply S1 | apply S2].
Qed.

Lemma step_extends st st' : step st st' → extends st st'.
Proof.
  intros Hs. destruct Hs as [| env s r h _ _ _ _ | u k _ _ | a _ | a _];
    [apply extends_refl | | by split ..].
  split.
  - intros id Hid. apply logged_emails_at_old. lia.
  - simpl. lia.
  - intros a. rewrite logged_recipientEmails_at.
    destruct (decide (a = r)); [by apply prefix_app_r | done].
  - intros a. rewrite logged_senderEmails_at.
    destruct (decide (a = s)); [by apply prefix_app_r | done].
Qed.

Lemma run_extends st txs : extends st (run st txs).
Proof.
  induction txs as [| tx txs IH] using rev_ind.
  - apply extends_refl.
  - rewrite run_snoc. eapply extends_trans; [exact IH |].
    apply step_extends, execute_step.
Qed.

Section Immutability.

Variable env : Env.
Variable c : Call.
Variable st : ChainMail.

(** C3.  For every call [c] of the public state-mutating surface
    ([logSend], [logSendFor], [registerPublicKey], [registerPublicKeyFor],
    [setRelayAddress], [transferOwnership]), by any caller and with any
    arguments: every record [emails[id]] with [1 <= id <= emailCount]
    before the call reads the same after it, and every entry of
    [recipientEmails] and of [senderEmails] keeps its value and its
    position (the lists only grow at the end). *)
Theorem records_immutable_indices_append_only :
  let st' := committed st (dispatch env c st) in
  (∀ id, 1 ≤ id ≤ emailCount st →
     emails_at st' id = emails_at st id ∧
     ∃ e, getEmail id st = Success e st [] ∧ getEmail id st' = Success e st' []) ∧
  (∀ a i x, recipientEmails_at st a !! i = Some x →
     recipientEmails_at st' a !! i = Some x) ∧
  (∀ a i x, senderEmails_at st a !! i = Some x →
     senderEmails_at st' a !! i = Some x) ∧
  (∀ a, length (recipientEmails_at st a) ≤ length (recipientEmails_at st' a)
        ∧ length (senderEmails_at st a) ≤ length (senderEmails_at st' a))%nat.
Proof.
  intros st'.
  assert (Hext : extends st st').
  { apply step_extends. apply (execute_step st (mkTx env c)). }
  destruct Hext as [E C R S].
  split; [| split; [| split]].
  - intros id Hid. split; [by apply E |].
    rewrite !getEmail_unfold, (E id Hid).
    replace (0 <? id) with true by (symmetry; apply N.ltb_lt; lia).
    replace (id <=? emailCount st) with true by (symmetry; apply N.leb_le; lia).
    replace (id <=? emailCount st') with true by (symmetry; apply N.leb_le; lia).
    by eexists.
  - intros a i x Hi. by eapply prefix_lookup_Some.
  - intros a i x Hi. by eapply prefix_lookup_Some.
  - intros a. split; by apply prefix_length.
Qed.

End Immutability.

Lemma records_immutable_indices_append_only_witness :
  let st := sample_state in
  let st' := committed st (dispatch (mkEnv 11 2000) (LogSend 12 "cid4") st) in
  emailCount st = 3 ∧ emailCount st' = 4 ∧
  emails_at st' 2 = emails_at st 2 ∧
  recipientEmails_at st 12 = [1; 2] ∧
  recipientEmails_at st' 12 !! 1%nat = Some 2.
Proof.
  cbv zeta.
  destruct (records_immutable_indices_append_only
              (mkEnv 11 2000) (LogSend 12 "cid4") sample_state)
    as (He & Hr & _).
  split; [reflexivity |]. split; [reflexivity |].
  split; [| split; [reflexivity |]].
  - apply (He 2). vm_compute. split; discriminate.
  - apply (Hr 12 1%nat 2). reflexivity.
Defined.

(** ** Submission and retrieval *)

Section Submission.

Variable env : Env.
Variable st : ChainMail.

(** C1.  A valid [logSend] (caller and recipient non-zero, content pointer
    non-empty, counter below its limit) returns an id, and [getEmail] of
    that id, on the resulting storage and after any further calls, returns
    the caller, the recipient and the content pointer submitted, the block
    timestamp of the submitting transaction (the time of the call as the
    ledger knows it, so not earlier than it), and [isImmutable = true]. *)
Theorem logSend_getEmail_roundtrip (r : address) (h : string) :
  msg_sender env ≠ 0 → r ≠ 0 → h ≠ "" → emailCount st < MAX_UINT256 →
  ∃ id st' log,
    logSend env r h st = Success id st' log ∧
    ∀ later,
      let st'' := run st' later in
      ∃ t, getEmail id st'' = Success (msg_sender env, r, h, t, true) st'' []
           ∧ t = block_timestamp env ∧ block_timestamp env ≤ t.
Proof.
  intros Hs Hr Hh Hc.
  eexists _, _, _. split.
  - unfold logSend. by apply _logEmail_valid.
  - intros later st''. exists (block_timestamp env).
    split; [| split; [reflexivity | lia]].
    destruct (run_extends (logged env (msg_sender env) r h st) later) as [E C _ _].
    fold st'' in E, C. simpl in E, C.
    rewrite getEmail_unfold, (E (emailCount st + 1)) by lia.
    rewrite logged_emails_at_new. simpl.
    replace (0 <? emailCount st + 1) with true by (symmetry; apply N.ltb_lt; lia).
    replace (emailCount st + 1 <=? emailCount st'') with true
      by (symmetry; apply N.leb_le; lia).
    reflexivity.
Qed.

End Submission.

Lemma logSend_getEmail_roundtrip_witness :
  ∃ id st' log,
    logSend (mkEnv 11 1001) 12 "cid1" sample_deployment = Success id st' log ∧
    ∀ later,
      let st'' := run st' later in
      ∃ t, getEmail id st'' = Success (11, 12, "cid1", t, true) st'' []
           ∧ t = 1001 ∧ 1001 ≤ t.
Proof.
  apply (logSend_getEmail_roundtrip (mkEnv 11 1001) sample_deployment 12 "cid1").
  - simpl; lia.
  - lia.
  - discriminate.
  - vm_compute; reflexivity.
Defined.

(** ** Authorization of the relay entry points *)

Section RelayAuthorization.

Variable env : Env.
Variable st : ChainMail.

(** C4.  Called by any address other than the current [relayAddress],
    [logSendFor] and [registerPublicKeyFor] fail with "Not authorized
    relay", whatever their arguments, having written nothing, and the
    ledger keeps the storage as it was.  [logSend] and [registerPublicKey]
    succeed for every caller, owner, relay or neither, acting for its own
    (non-zero) account with valid arguments. *)
Theorem relay_only_authorization :
  (msg_sender env ≠ relayAddress st →
     (∀ s r h,
        logSendFor env s r h st = Reverted (Error "Not authorized relay") st
        ∧ execute st (mkTx env (LogSendFor s r h)) = st) ∧
     (∀ u k,
        registerPublicKeyFor env u k st = Reverted (Error "Not authorized relay") st
        ∧ execute st (mkTx env (RegisterPublicKeyFor u k)) = st)) ∧
  (∀ r h, msg_sender env ≠ 0 → r ≠ 0 → h ≠ "" → emailCount st < MAX_UINT256 →
     logSend env r h st =
       Success (emailCount st + 1) (logged env (msg_sender env) r h st)
         [EmailSent (emailCount st + 1) (msg_sender env) r h (block_timestamp env)]) ∧
  (∀ k, msg_sender env ≠ 0 → k ≠ "" →
     registerPublicKey env k st =
       Success tt (set_publicKeys (insert (msg_sender env) k) st)
         [PublicKeyRegistered (msg_sender env) k (block_timestamp env)]).
Proof.
  split; [| split].
  - intros Hne. split.
    + intros s r h. unfold execute, receipt; simpl.
      rewrite returning_unfold. unfold logSendFor. rewrite onlyRelay_unfold.
      by rewrite bool_decide_eq_false_2.
    + intros u k. unfold execute, receipt; simpl.
      rewrite returning_unfold. unfold registerPublicKeyFor.
      rewrite onlyRelay_unfold. by rewrite bool_decide_eq_false_2.
  - intros r h Hs Hr Hh Hc. unfold logSend. by apply _logEmail_valid.
  - intros k Hs Hk. unfold registerPublicKey.
    rewrite _setPublicKey_unfold, bytes_length_pos.
    by rewrite !bool_decide_eq_false_2.
Qed.

End RelayAuthorization.

Lemma relay_only_authorization_witness :
  logSendFor (mkEnv 13 1002) 11 12 "x" sample_deployment
    = Reverted (Error "Not authorized relay") sample_deployment ∧
  registerPublicKeyFor (mkEnv 13 1002) 11 "K" sample_deployment
    = Reverted (Error "Not authorized relay") sample_deployment ∧
  is_reverted (logSend (mkEnv 13 1002) 12 "x" sample_deployment) = false ∧
  is_reverted (registerPublicKey (mkEnv 13 1002) "K" sample_deployment) = false.
Proof.
  destruct (relay_only_authorization (mkEnv 13 1002) sample_deployment)
    as (Hrelay & Hsend & Hkey).
  assert (Hne : msg_sender (mkEnv 13 1002) ≠ relayAddress sample_deployment)
    by (vm_compute; discriminate).
  destruct (Hrelay Hne) as [Hfor Hkeyfor].
  split; [apply (Hfor 11 12 "x") |]. split; [apply (Hkeyfor 11 "K") |].
  split.
  - rewrite (Hsend 12 "x"); [reflexivity | simpl; lia | lia | discriminate |].
    vm_compute; reflexivity.
  - rewrite (Hkey "K"); [reflexivity | simpl; lia | discriminate].
Defined.

(** ** Validation failures *)

(** The reading of C5 that the code does not satisfy: on the sample
    deployment (relay 20), account 13 calls [logSendFor] with a non-zero
    sender, a non-zero recipient and a non-empty pointer, and the call is
    rejected all the same, by [onlyRelay]. *)
Lemma rejection_iff_invalid_counterexample :
  let o := logSendFor (mkEnv 13 1002) 11 12 "x" sample_deployment in
  o = Reverted (Error "Not authorized relay") sample_deployment ∧
  ¬ (is_reverted o = true ↔ (11 = 0 ∨ 12 = 0 ∨ "x" = "")).
Proof.
  cbv zeta. split; [reflexivity |].
  intros [Hrej _]. destruct (Hrej eq_refl) as [H | [H | H]]; discriminate.
Qed.

Section ValidationFailures.

Variable env : Env.
Variable st : ChainMail.

(** C5, amended.  [logSend] is rejected whenever the caller is the zero
    address, the recipient is the zero address or the content pointer is
    empty, and for no other reason while the counter is below its limit.
    [logSendFor] is rejected in the same three cases of its arguments;
    called by the relay it is rejected for no other reason (while the
    counter is below its limit); called by anyone else it is rejected
    whatever the arguments.  [registerPublicKey] and
    [registerPublicKeyFor] are rejected on a zero account or an empty
    key.  Every rejection of every call of the public surface happens
    before any write, and the ledger keeps the whole storage as it
    was. *)
Theorem validation_failure_atomicity :
  (∀ r h,
     (msg_sender env = 0 ∨ r = 0 ∨ h = "" → is_reverted (logSend env r h st) = true) ∧
     (emailCount st < MAX_UINT256 →
      is_reverted (logSend env r h st) = true → msg_sender env = 0 ∨ r = 0 ∨ h = "")) ∧
  (∀ s r h,
     (s = 0 ∨ r = 0 ∨ h = "" → is_reverted (logSendFor env s r h st) = true) ∧
     (emailCount st < MAX_UINT256 → msg_sender env = relayAddress st →
      is_reverted (logSendFor env s r h st) = true → s = 0 ∨ r = 0 ∨ h = "") ∧
     (msg_sender env ≠ relayAddress st →
      is_reverted (logSendFor env s r h st) = true)) ∧
  (∀ k, msg_sender env = 0 ∨ k = "" →
     is_reverted (registerPublicKey env k st) = true) ∧
  (∀ u k, u = 0 ∨ k = "" →
     is_reverted (registerPublicKeyFor env u k st) = true) ∧
  (∀ c e dirty, dispatch env c st = Reverted e dirty →
     dirty = st ∧ execute st (mkTx env c) = st).
Proof.
  split; [| split; [| split; [| split]]].
  - intros r h. split.
    + intros [H | [H | H]]; contract_cases; congruence.
    + intros Hc. contract_cases; intros Hrej; try discriminate; auto.
      lia.
  - intros s r h. split; [| split].
    + intros [H | [H | H]]; contract_cases; congruence.
    + intros Hc Hrelay. contract_cases; intros Hrej;
        try discriminate; try contradiction; auto.
      lia.
    + intros Hne. contract_cases; congruence.
  - intros k [H | H]; contract_cases; congruence.
  - intros u k [H | H]; contract_cases; congruence.
  - intros c e dirty Hrun. split.
    + by eapply dispatch_reverted_clean.
    + unfold execute, receipt; simpl. by rewrite Hrun.
Qed.

End ValidationFailures.

Lemma validation_failure_atomicity_witness :
  let st := sample_state in
  is_reverted (logSend (mkEnv 11 2000) 0 "cid" st) = true ∧
  (11 = 0 ∨ 0 = 0 ∨ "cid" = "") ∧
  is_reverted (logSendFor (mkEnv 20 2000) 11 12 "" st) = true ∧
  (11 = 0 ∨ 12 = 0 ∨ "" = "") ∧
  is_reverted (logSendFor (mkEnv 13 2000) 11 12 "cid" st) = true ∧
  is_reverted (registerPublicKey (mkEnv 11 2000) "" st) = true ∧
  is_reverted (registerPublicKeyFor (mkEnv 20 2000) 0 "K" st) = true ∧
  execute st (mkTx (mkEnv 11 2000) (LogSend 0 "cid")) = st.
Proof.
  cbv zeta.
  destruct (validation_failure_atomicity (mkEnv 11 2000) sample_state)
    as (Hsend & _ & Hkey & _ & Hclean).
  destruct (validation_failure_atomicity (mkEnv 20 2000) sample_state)
    as (_ & Hfor & _ & Hkeyfor & _).
  destruct (validation_failure_atomicity (mkEnv 13 2000) sample_state)
    as (_ & Hother & _).
  destruct (Hsend 0 "cid") as [Hif Honly].
  destruct (Hfor 11 12 "") as (Hif' & Honly' & _).
  destruct (Hother 11 12 "cid") as (_ & _ & Hne).
  assert (Hc : emailCount sample_state < MAX_UINT256) by (vm_compute; reflexivity).
  assert (Hrej : is_reverted (logSend (mkEnv 11 2000) 0 "cid" sample_state) = true)
    by (apply Hif; right; left; reflexivity).
  assert (Hrej' : is_reverted (logSendFor (mkEnv 20 2000) 11 12 "" sample_state) = true)
    by (apply Hif'; right; right; reflexivity).
  split; [exact Hrej |].
  split; [exact (Honly Hc Hrej) |].
  split; [exact Hrej' |].
  split; [exact (Honly' Hc eq_refl Hrej') |].
  split; [apply Hne; vm_compute; discriminate |].
  split; [apply Hkey; right; reflexivity |].
  split; [apply Hkeyfor; left; reflexivity |].
  apply (Hclean (LogSend 0 "cid") (Error "Invalid recipient address") sample_state).
  reflexivity.
Defined.

(** ** The per-account indices *)

Lemma ids_upto_succ n : ids_upto (n + 1) = ids_upto n ++ [n + 1].
Proof.
  unfold ids_upto. replace (N.to_nat (n + 1)) with (S (N.to_nat n)) by lia.
  rewrite seq_S, fmap_app. simpl. do 2 f_equal. lia.
Qed.

Lemma elem_of_ids_upto n k : k ∈ ids_upto n ↔ 1 ≤ k ≤ n.
Proof.
  unfold ids_upto. rewrite list_elem_of_fmap. split.
  - intros (i & -> & Hi). apply elem_of_seq in Hi. lia.
  - intros Hk. exists (N.to_nat k). split; [lia |]. apply elem_of_seq. lia.
Qed.

Lemma filter_ext_elem {A} (P Q : A → Prop)
    `{!∀ x, Decision (P x)} `{!∀ x, Decision (Q x)} (l : list A) :
  (∀ x, x ∈ l → (P x ↔ Q x)) → filter P l = filter Q l.
Proof.
  induction l as [| x l IH]; intros Hext; [reflexivity |].
  rewrite !filter_cons.
  rewrite IH by (intros y Hy; apply Hext; by right).
  destruct (decide (P x)) as [HP | HP], (decide (Q x)) as [HQ | HQ];
    try reflexivity; exfalso.
  - apply HQ, Hext; [by left | exact HP].
  - apply HP, Hext; [by left | exact HQ].
Qed.

Lemma filter_ids_logged (f : Email → address) env s r h st a :
  filter (λ id, f (emails_at (logged env s r h st) id) = a)
    (ids_upto (emailCount st + 1))
  = filter (λ id, f (emails_at st id) = a) (ids_upto (emailCount st))
    ++ (if decide (f (mkEmail s r h (block_timestamp env) true) = a)
        then [emailCount st + 1] else []).
Proof.
  rewrite ids_upto_succ, filter_app. f_equal.
  - apply filter_ext_elem. intros id Hid.
    apply elem_of_ids_upto in Hid.
    rewrite logged_emails_at_old by lia. reflexivity.
  - rewrite filter_cons, filter_nil, logged_emails_at_new. reflexivity.
Qed.

Lemma step_indices_exact st st' : indices_exact st → step st st' → indices_exact st'.
Proof.
  intros [HR HS] Hs.
  destruct Hs as [| env s r h _ _ _ _ | u k _ _ | a _ | a _];
    [by split | | by split ..].
  split.
  - intros a. rewrite logged_recipientEmails_at, HR. unfold received_by.
    change (emailCount (logged env s r h st)) with (emailCount st + 1).
    rewrite (filter_ids_logged recipient). simpl.
    destruct (decide (a = r)) as [-> | Hne].
    + by rewrite decide_True.
    + rewrite decide_False by congruence. by rewrite app_nil_r.
  - intros a. rewrite logged_senderEmails_at, HS. unfold sent_by.
    change (emailCount (logged env s r h st)) with (emailCount st + 1).
    rewrite (filter_ids_logged sender). simpl.
    destruct (decide (a = s)) as [-> | Hne].
    + by rewrite decide_True.
    + rewrite decide_False by congruence. by rewrite app_nil_r.
Qed.

Section Indices.

Variable env : Env.
Variable relay : address.
Variable txs : list Tx.


End Indices.

Example indices_sample :
  getRecipientEmails 12 sample_state = Success [1; 2] sample_state [] ∧
  getSenderEmails 12 sample_state = Success [3] sample_state [] ∧
  received_by sample_state 12 = [1; 2] ∧ sent_by sample_state 11 = [1; 2].
Proof. repeat split; vm_compute; reflexivity. Qed.

(** ** The public-key registry *)

Lemma set_publicKeys_at u k st a :
  publicKeys_at (set_publicKeys (insert u k) st) a
  = if decide (a = u) then k else publicKeys_at st a.
Proof.
  unfold publicKeys_at; simpl. destruct (decide (a = u)) as [-> | Hne].
  - by rewrite lookup_insert_eq.
  - by rewrite lookup_insert_ne.
Qed.

Lemma set_publicKeys_twice u k1 k2 st :
  set_publicKeys (insert u k2) (set_publicKeys (insert u k1) st)
  = set_publicKeys (insert u k2) st.
Proof. unfold set_publicKeys; simpl. by rewrite insert_insert_eq. Qed.

Lemma execute_publicKeys_at st tx a :
  publicKeys_at (execute st tx) a
  = match registration_for a tx with
    | Some k => if is_reverted (receipt st tx) then publicKeys_at st a else k
    | None => publicKeys_at st a
    end.
Proof.
  unfold execute, receipt, registration_for.
  destruct tx as [env c]; destruct c; simpl; contract_cases;
    rewrite ?set_publicKeys_at, ?decide_True, ?decide_False by congruence;
    reflexivity.
Qed.

Lemma publicKeys_at_run st txs a :
  publicKeys_at (run st txs) a
  = default (publicKeys_at st a) (last (registered_keys st txs a)).
Proof.
  revert st. induction txs as [| tx txs IH]; intros st; [reflexivity |].
  rewrite run_cons, IH, execute_publicKeys_at. simpl.
  destruct (registration_for a tx) as [k |]; [| reflexivity].
  destruct (is_reverted (receipt st tx)); [reflexivity |].
  simpl. rewrite last_cons. by destruct (last _).
Qed.

(** Two successful registrations for the same account in a row leave the
    storage that the second one alone would have left. *)
Lemma registration_overwrites st a txA txB A B :
  registration_for a txA = Some A →
  registration_for a txB = Some B →
  is_reverted (receipt st txA) = false →
  is_reverted (receipt (execute st txA) txB) = false →
  run st [txA; txB] = run st [txB] ∧ publicKeys_at (run st [txA; txB]) a = B.
Proof.
  intros HA HB HrA HrB.
  assert (Hkey : publicKeys_at (run st [txA; txB]) a = B).
  { rewrite publicKeys_at_run. simpl. rewrite HA, HB, HrA, HrB. reflexivity. }
  split; [| exact Hkey].
  clear Hkey. revert HA HB HrA HrB. unfold run; simpl.
  unfold registration_for, execute, receipt.
  destruct txA as [envA cA], txB as [envB cB]; simpl.
  destruct cA; try discriminate; destruct cB; try discriminate; simpl;
    contract_cases; intros HA HB HrA HrB; try discriminate;
    simplify_eq; try contradiction;
    try match goal with H : msg_sender _ = msg_sender _ |- _ => rewrite H end;
    rewrite ?set_publicKeys_twice; reflexivity.
Qed.

Section Registry.

Variable env : Env.
Variable relay : address.
Variable txs : list Tx.
Variable a : address.

(** C7.  After any history of calls on a fresh deployment,
    [getPublicKey a] returns the key of the last successful registration
    for [a] (through [registerPublicKey] by [a] or [registerPublicKeyFor]
    by the relay), and the empty string when there was none.  When a key
    [A] and then a key [B] are registered for [a], [getPublicKey a]
    returns [B], and the storage is the one that registering [B] alone
    would have produced: it does not depend on [A], so no operation of the
    contract, all of which read only the storage and their arguments, can
    return [A]. *)
Theorem publicKey_last_write_wins :
  let st0 := deploy env relay in
  let st := run st0 txs in
  getPublicKey a st = Success (default "" (last (registered_keys st0 txs a))) st [] ∧
  (registered_keys st0 txs a = [] → getPublicKey a st = Success "" st []) ∧
  (∀ txA txB A B,
     registration_for a txA = Some A →
     registration_for a txB = Some B →
     is_reverted (receipt st txA) = false →
     is_reverted (receipt (execute st txA) txB) = false →
     let stAB := run st [txA; txB] in
     getPublicKey a stAB = Success B stAB [] ∧
     stAB = run st [txB] ∧
     ∀ later, run stAB later = run (run st [txB]) later).
Proof.
  intros st0 st.
  assert (Hlast : publicKeys_at st a = default "" (last (registered_keys st0 txs a))).
  { subst st. rewrite publicKeys_at_run. subst st0. by rewrite deploy_unfold. }
  split; [| split].
  - unfold getPublicKey, bind, get, ret; simpl. by rewrite Hlast.
  - intros Hnone. unfold getPublicKey, bind, get, ret; simpl.
    by rewrite Hlast, Hnone.
  - intros txA txB A B HA HB HrA HrB stAB.
    destruct (registration_overwrites st a txA txB A B HA HB HrA HrB) as [Heq Hkey].
    split; [| split].
    + unfold getPublicKey, bind, get, ret; simpl. subst stAB. by rewrite Hkey.
    + exact Heq.
    + intros later. subst stAB. by rewrite Heq.
Qed.

End Registry.

Lemma publicKey_last_write_wins_witness :
  let st := sample_state in
  let txA := mkTx (mkEnv 11 3000) (RegisterPublicKey "A") in
  let txB := mkTx (mkEnv 20 3001) (RegisterPublicKeyFor 11 "B") in
  getPublicKey 12 st = Success "K" st [] ∧
  getPublicKey 13 st = Success "" st [] ∧
  getPublicKey 11 (run st [txA; txB]) = Success "B" (run st [txA; txB]) [] ∧
  run st [txA; txB] = run st [txB].
Proof.
  cbv zeta.
  destruct (publicKey_last_write_wins (mkEnv 10 1000) 20 sample_history 12)
    as (H12 & _ & _).
  destruct (publicKey_last_write_wins (mkEnv 10 1000) 20 sample_history 13)
    as (_ & H13 & _).
  destruct (publicKey_last_write_wins (mkEnv 10 1000) 20 sample_history 11)
    as (_ & _ & H11).
  split; [exact H12 |]. split; [apply H13; reflexivity |].
  destruct (H11 (mkTx (mkEnv 11 3000) (RegisterPublicKey "A"))
                (mkTx (mkEnv 20 3001) (RegisterPublicKeyFor 11 "B")) "A" "B"
                eq_refl eq_refl eq_refl eq_refl) as (Hget & Heq & _).
  split; [exact Hget | exact Heq].
Defined.

(** ** Administration *)

Lemma relay_check_iff env st :
  (∀ s r h, passes_relay_check (logSendFor env s r h st)
            ↔ msg_sender env = relayAddress st) ∧
  (∀ u k, passes_relay_check (registerPublicKeyFor env u k st)
          ↔ msg_sender env = relayAddress st).
Proof.
  unfold passes_relay_check, logSendFor, registerPublicKeyFor.
  split; intros; rewrite onlyRelay_unfold; case_bool_decide as Hc.
  - split; [done | intros _ dirty].
    rewrite _logEmail_unfold, bytes_length_pos.
    repeat case_bool_decide; discriminate.
  - split; [intros Hp; exfalso; by apply (Hp st) | done].
  - split; [done | intros _ dirty].
    rewrite _setPublicKey_unfold, bytes_length_pos.
    repeat case_bool_decide; discriminate.
  - split; [intros Hp; exfalso; by apply (Hp st) | done].
Qed.

Lemma owner_check_iff env st :
  (∀ a, passes_owner_check (setRelayAddress env a st)
        ↔ msg_sender env = owner st) ∧
  (∀ a, passes_owner_check (transferOwnership env a st)
        ↔ msg_sender env = owner st).
Proof.
  unfold passes_owner_check.
  split; intros;
    rewrite ?setRelayAddress_unfold, ?transferOwnership_unfold;
    case_bool_decide as Hc.
  - split; [done | intros _ dirty]. case_bool_decide; discriminate.
  - split; [intros Hp; exfalso; by apply (Hp st) | done].
  - split; [done | intros _ dirty]. case_bool_decide; discriminate.
  - split; [intros Hp; exfalso; by apply (Hp st) | done].
Qed.

Section Administration.

Variable env : Env.
Variable st : ChainMail.
Variable n : address.

(** C8.  [setRelayAddress] and [transferOwnership] are rejected, with
    nothing written, when the caller is not the owner and when the
    argument is the zero address.  Called by the owner with a non-zero
    [n] they succeed, changing that one field.  After
    [setRelayAddress n], a caller passes the relay check of [logSendFor]
    and [registerPublicKeyFor] exactly when it is [n]; after
    [transferOwnership n], a caller passes the owner check of the two
    administrative operations exactly when it is [n]. *)
Theorem admin_operations :
  (msg_sender env ≠ owner st →
     setRelayAddress env n st = Reverted (Error "Not contract owner") st ∧
     transferOwnership env n st = Reverted (Error "Not contract owner") st) ∧
  (n = 0 →
     (∃ e, setRelayAddress env n st = Reverted e st) ∧
     (∃ e, transferOwnership env n st = Reverted e st)) ∧
  (msg_sender env = owner st → n = 0 →
     setRelayAddress env n st = Reverted (Error "Invalid relay address") st ∧
     transferOwnership env n st = Reverted (Error "Invalid owner address") st) ∧
  (msg_sender env = owner st → n ≠ 0 →
     let st' := set_relayAddress n st in
     setRelayAddress env n st = Success tt st' [] ∧
     ∀ env',
       (∀ s r h, passes_relay_check (logSendFor env' s r h st')
                 ↔ msg_sender env' = n) ∧
       (∀ u k, passes_relay_check (registerPublicKeyFor env' u k st')
               ↔ msg_sender env' = n)) ∧
  (msg_sender env = owner st → n ≠ 0 →
     let st' := set_owner n st in
     transferOwnership env n st = Success tt st' [] ∧
     ∀ env',
       (∀ a, passes_owner_check (setRelayAddress env' a st')
             ↔ msg_sender env' = n) ∧
       (∀ a, passes_owner_check (transferOwnership env' a st')
             ↔ msg_sender env' = n)).
Proof.
  split; [| split; [| split; [| split]]].
  - intros Hne. by contract_cases.
  - intros ->. split; contract_cases; try contradiction; eexists; reflexivity.
  - intros Ho ->. by contract_cases.
  - intros Ho Hn st'. split; [by contract_cases |].
    intros env'. apply (relay_check_iff env' st').
  - intros Ho Hn st'. split; [by contract_cases |].
    intros env'. apply (owner_check_iff env' st').
Qed.

End Administration.

Lemma admin_operations_witness :
  let st := sample_state in
  setRelayAddress (mkEnv 11 4000) 30 st = Reverted (Error "Not contract owner") st ∧
  setRelayAddress (mkEnv 10 4000) 0 st = Reverted (Error "Invalid relay address") st ∧
  transferOwnership (mkEnv 10 4000) 0 st = Reverted (Error "Invalid owner address") st ∧
  (∃ e, transferOwnership (mkEnv 11 4000) 0 st = Reverted e st) ∧
  setRelayAddress (mkEnv 10 4000) 30 st = Success tt (set_relayAddress 30 st) [] ∧
  (passes_relay_check (logSendFor (mkEnv 20 4001) 11 12 "c" (set_relayAddress 30 st))
   ↔ 20 = 30) ∧
  transferOwnership (mkEnv 10 4000) 31 st = Success tt (set_owner 31 st) [] ∧
  (passes_owner_check (setRelayAddress (mkEnv 31 4001) 30 (set_owner 31 st))
   ↔ 31 = 31).
Proof.
  cbv zeta.
  destruct (admin_operations (mkEnv 11 4000) sample_state 30) as (Hnot & _).
  destruct (admin_operations (mkEnv 11 4000) sample_state 0) as (_ & Hzero' & _).
  destruct (admin_operations (mkEnv 10 4000) sample_state 0) as (_ & _ & Hzero & _).
  destruct (admin_operations (mkEnv 10 4000) sample_state 30) as (_ & _ & _ & Hrelay & _).
  destruct (admin_operations (mkEnv 10 4000) sample_state 31) as (_ & _ & _ & _ & Hown).
  assert (H30 : (30 : N) ≠ 0) by discriminate.
  assert (H31 : (31 : N) ≠ 0) by discriminate.
  assert (Hne : msg_sender (mkEnv 11 4000) ≠ owner sample_state)
    by (vm_compute; discriminate).
  assert (Ho : msg_sender (mkEnv 10 4000) = owner sample_state) by reflexivity.
  destruct (Hrelay Ho H30) as [Hr1 Hr2].
  destruct (Hown Ho H31) as [Ho1 Ho2].
  split; [apply (Hnot Hne) |].
  split; [apply (Hzero Ho eq_refl) |].
  split; [apply (Hzero Ho eq_refl) |].
  split; [apply (Hzero' eq_refl) |].
  split; [exact Hr1 |].
  split; [apply (Hr2 (mkEnv 20 4001)) |].
  split; [exact Ho1 |].
  apply (Ho2 (mkEnv 31 4001)).
Defined.

(** ** Deployment *)

Section Deployment.

Variable env : Env.
Variable a : address.

(** C10.  The constructor has no check: for every argument [a], the zero
    address included, it succeeds and leaves [owner] = the deployer,
    [relayAddress] = [a] and everything else empty.  Deployed with
    [a = 0], the contract refuses every call of [logSendFor] and
    [registerPublicKeyFor] by a non-zero caller, while [setRelayAddress]
    refuses that same value [0] from the owner; once the owner has set a
    non-zero relay [n], exactly [n] passes the relay check. *)
Theorem constructor_accepts_any_relay :
  constructor env a zero_storage
    = Success tt (mkChainMail ∅ 0 ∅ ∅ ∅ (msg_sender env) a) [] ∧
  owner (deploy env a) = msg_sender env ∧
  relayAddress (deploy env a) = a ∧
  (let st := deploy env 0 in
   constructor env 0 zero_storage = Success tt st [] ∧
   relayAddress st = 0 ∧
   (∀ env', msg_sender env' ≠ 0 →
      (∀ s r h, logSendFor env' s r h st
                = Reverted (Error "Not authorized relay") st) ∧
      (∀ u k, registerPublicKeyFor env' u k st
              = Reverted (Error "Not authorized relay") st)) ∧
   (∀ t, setRelayAddress (mkEnv (msg_sender env) t) 0 st
         = Reverted (Error "Invalid relay address") st) ∧
   (∀ t n, n ≠ 0 →
      setRelayAddress (mkEnv (msg_sender env) t) n st
        = Success tt (set_relayAddress n st) [] ∧
      ∀ env' s r h,
        passes_relay_check (logSendFor env' s r h (set_relayAddress n st))
        ↔ msg_sender env' = n)).
Proof.
  split; [reflexivity |]. split; [reflexivity |]. split; [reflexivity |].
  cbv zeta. split; [reflexivity |]. split; [reflexivity |].
  split; [| split].
  - intros env' Hne. split; intros; by contract_cases.
  - intros t. by contract_cases.
  - intros t n Hn. split; [by contract_cases |].
    intros env' s r h. apply (relay_check_iff env' (set_relayAddress n (deploy env 0))).
Qed.

End Deployment.

Lemma constructor_accepts_any_relay_witness :
  let st := deploy (mkEnv 10 1000) 0 in
  owner st = 10 ∧ relayAddress st = 0 ∧
  logSendFor (mkEnv 20 1001) 11 12 "cid" st = Reverted (Error "Not authorized relay") st ∧
  registerPublicKeyFor (mkEnv 10 1001) 11 "K" st = Reverted (Error "Not authorized relay") st ∧
  setRelayAddress (mkEnv 10 1002) 0 st = Reverted (Error "Invalid relay address") st ∧
  setRelayAddress (mkEnv 10 1002) 20 st = Success tt (set_relayAddress 20 st) [] ∧
  (passes_relay_check (logSendFor (mkEnv 20 1003) 11 12 "cid" (set_relayAddress 20 st))
   ↔ 20 = 20).
Proof.
  cbv zeta.
  destruct (constructor_accepts_any_relay (mkEnv 10 1000) 0)
    as (_ & Ho & Hr & _ & _ & Hrefuse & Hzero & Hset).
  assert (H20 : (20 : N) ≠ 0) by discriminate.
  assert (H10 : (10 : N) ≠ 0) by discriminate.
  split; [exact Ho |]. split; [exact Hr |].
  split; [apply (Hrefuse (mkEnv 20 1001) H20) |].
  split; [apply (Hrefuse (mkEnv 10 1001) H10) |].
  split; [apply (Hzero 1002) |].
  destruct (Hset 1002 20 H20) as [Hok Hpass].
  split; [exact Hok |].
  apply (Hpass (mkEnv 20 1003) 11 12 "cid").
Defined.

(** ** Guards and failure reporting of the endpoint *)

(** Splits a run of the handler along the answers of its collaborators,
    innermost call first. *)
Ltac handler_cases :=
  unfold Relay.POST, Relay.try_block, Relay.extract_emailId, Relay.parseLog_args0,
    Relay.getEvent, Relay.CHAINMAIL_ABI, Relay.andThen,
    Relay.await, Relay.perform, Relay.pure;
  repeat (match goal with
          | |- context [match find ?f ?l with _ => _ end] =>
              destruct (find f l) eqn:?
          | |- context [match ?x with _ => _ end] =>
              lazymatch x with
              | context [match _ with _ => _ end] => fail
              | _ => destruct x eqn:?
              end
          end; simpl in *).

Section RelayEndpoint.

Variable below_minimum : N → bool.
Variable EmailSent_topic : string.
Variable Number : N → N.
Variable w : Relay.World.






End RelayEndpoint.



(** A run in which every guard passes: the submission is made and its
    receipt reported.  The receipt has an [EmailSent] log, but the ABI of
    the handler declares no event, so the id reported is 0. *)
Example relay_success :
  Relay.POST below_0_001_ether "0xtopic" id (sample_world (Relay.Returns (10 ^ 18)))
  = (Relay.json (Relay.SuccessBody 0 "0xtx" "21000") 200,
     [Relay.BalanceQueried "0xRelay";
      Relay.Submitted "0xC" (Relay.JsString "0xA") (Relay.JsString "0xB")
        (Relay.JsString "cid1");
      Relay.ReceiptAwaited (Relay.mkTransactionResponse "0xtx")]).
Proof. vm_compute. reflexivity. Qed.

(** * Further properties of the contract *)

(** ** One transaction, case by case *)

(** The five things a call can do, with the value it returns and the
    events it emits. *)
Lemma receipt_cases st tx :
  (∃ e, receipt st tx = Reverted e st)
  ∨ (∃ s r h, s ≠ 0 ∧ r ≠ 0 ∧ h ≠ "" ∧ emailCount st ≠ MAX_UINT256
       ∧ is_submission (tx_call tx) = true
       ∧ receipt st tx =
           Success (Id (emailCount st + 1)) (logged (tx_env tx) s r h st)
             [EmailSent (emailCount st + 1) s r h (block_timestamp (tx_env tx))])
  ∨ (∃ u k, u ≠ 0 ∧ k ≠ ""
       ∧ registration_target (tx_env tx) (tx_call tx) = Some u
       ∧ receipt st tx =
           Success NoValue (set_publicKeys (insert u k) st)
             [PublicKeyRegistered u k (block_timestamp (tx_env tx))])
  ∨ (∃ a, a ≠ 0 ∧ msg_sender (tx_env tx) = owner st
       ∧ tx_call tx = SetRelayAddress a
       ∧ receipt st tx = Success NoValue (set_relayAddress a st) [])
  ∨ (∃ a, a ≠ 0 ∧ msg_sender (tx_env tx) = owner st
       ∧ tx_call tx = TransferOwnership a
       ∧ receipt st tx = Success NoValue (set_owner a st) []).
Proof.
  unfold receipt. destruct tx as [env c]; destruct c; simpl; contract_cases;
    first
      [ by (left; eexists)
      | right; left; eexists _, _, _; split_and!; [.. | reflexivity]; done
      | do 2 right; left; eexists _, _; split_and!; [.. | reflexivity]; done
      | do 3 right; left; eexists; split_and!; [.. | reflexivity]; done
      | do 4 right; eexists; split_and!; [.. | reflexivity]; done ].
Qed.

Lemma emitted_snoc st txs tx :
  emitted st (txs ++ [tx])
  = emitted st txs ++ match receipt (run st txs) tx with
                      | Success _ _ log => log
                      | Reverted _ _ => []
                      end.
Proof.
  revert st. induction txs as [| tx' txs IH]; intros st; simpl.
  - by rewrite app_nil_r.
  - by rewrite IH, app_assoc.
Qed.

Lemma execute_receipt st tx : execute st tx = committed st (receipt st tx).
Proof. reflexivity. Qed.

Lemma announcement_logged env s r h st :
  announcement (logged env s r h st) <$> ids_upto (emailCount st + 1)
  = (announcement st <$> ids_upto (emailCount st))
    ++ [EmailSent (emailCount st + 1) s r h (block_timestamp env)].
Proof.
  rewrite ids_upto_succ, fmap_app. f_equal.
  - apply list_fmap_ext. intros i id Hid.
    apply list_elem_of_lookup_2, elem_of_ids_upto in Hid.
    unfold announcement. rewrite logged_emails_at_old by lia. reflexivity.
  - simpl. unfold announcement. by rewrite logged_emails_at_new.
Qed.

(** ** The event log and the storage *)

(** X1.  Along any history on a fresh deployment the [EmailSent] events
    emitted are, in order, exactly one event per stored record: the k-th
    carries the id k and the sender, recipient, content pointer and
    timestamp stored under k.  Calls that fail emit nothing. *)
Theorem EmailSent_log_mirrors_records (env : Env) (relay : address) (txs : list Tx) :
  let st := run (deploy env relay) txs in
  filter (λ e, is_EmailSent e = true) (emitted (deploy env relay) txs)
  = announcement st <$> ids_upto (emailCount st).
Proof.
  cbv zeta. induction txs as [| tx txs IH] using rev_ind; [reflexivity |].
  rewrite emitted_snoc, filter_app, IH, run_snoc, execute_receipt.
  set (st := run (deploy env relay) txs).
  destruct (receipt_cases st tx)
    as [[e Hr] | [(s & r & h & _ & _ & _ & _ & _ & Hr)
       | [(u & k & _ & _ & _ & Hr) | [(a & _ & _ & _ & Hr) | (a & _ & _ & _ & Hr)]]]];
    rewrite Hr; simpl.
  - by rewrite app_nil_r.
  - by rewrite announcement_logged.
  - by rewrite app_nil_r.
  - by rewrite app_nil_r.
  - by rewrite app_nil_r.
Qed.

Lemma keys_announced_receipt st tx a :
  keys_announced a match receipt st tx with
                   | Success _ _ log => log
                   | Reverted _ _ => []
                   end
  = match registration_for a tx with
    | Some k => if is_reverted (receipt st tx) then [] else [k]
    | None => []
    end.
Proof.
  unfold receipt, registration_for, keys_announced.
  destruct tx as [env c]; destruct c; simpl; contract_cases;
    repeat case_bool_decide; try reflexivity; congruence.
Qed.

Lemma keys_announced_app a log1 log2 :
  keys_announced a (log1 ++ log2) = keys_announced a log1 ++ keys_announced a log2.
Proof. apply omap_app. Qed.

Lemma keys_announced_emitted st txs a :
  keys_announced a (emitted st txs) = registered_keys st txs a.
Proof.
  revert st. induction txs as [| tx txs IH]; intros st; [reflexivity |].
  simpl. by rewrite keys_announced_app, keys_announced_receipt, IH.
Qed.

Lemma registered_keys_nonempty st txs a :
  Forall (λ k, k ≠ "") (registered_keys st txs a) ∧ (a = 0 → registered_keys st txs a = []).
Proof.
  revert st. induction txs as [| tx txs IH]; intros st; [by split |].
  simpl. destruct (IH (execute st tx)) as [IHk IH0].
  assert (Hhead :
    Forall (λ k, k ≠ "") match registration_for a tx with
                         | Some k => if is_reverted (receipt st tx) then [] else [k]
                         | None => []
                         end
    ∧ (a = 0 → match registration_for a tx with
               | Some k => if is_reverted (receipt st tx) then [] else [k]
               | None => []
               end = [])).
  { unfold receipt, registration_for.
    destruct tx as [env c]; destruct c; simpl; contract_cases;
      repeat case_bool_decide; simpl; split;
      try (by constructor); try done; intros; simplify_eq; congruence. }
  destruct Hhead as [Hk H0]. split.
  - by apply Forall_app.
  - intros Ha. by rewrite H0, IH0.
Qed.

(** X2.  The [PublicKeyRegistered] events of a history carry, for every
    account, exactly the keys successfully registered for it, in order;
    none of them is empty, and [getPublicKey] returns the key of the last
    such event, or the empty string when the log has none for the
    account. *)
Theorem PublicKeyRegistered_log_is_key_history
    (env : Env) (relay : address) (txs : list Tx) (a : address) :
  let st0 := deploy env relay in
  let st := run st0 txs in
  let keys := keys_announced a (emitted st0 txs) in
  keys = registered_keys st0 txs a ∧
  Forall (λ k, k ≠ "") keys ∧
  getPublicKey a st = Success (default "" (last keys)) st [] ∧
  (publicKeys_at st a = "" ↔ keys = []).
Proof.
  intros st0 st keys.
  assert (Hk : keys = registered_keys st0 txs a) by apply keys_announced_emitted.
  assert (Hne : Forall (λ k, k ≠ "") keys).
  { rewrite Hk. apply registered_keys_nonempty. }
  assert (Hget : publicKeys_at st a = default "" (last keys)).
  { subst st. rewrite publicKeys_at_run, Hk. subst st0. by rewrite deploy_unfold. }
  split_and!; try done.
  - unfold getPublicKey, bind, get, ret; simpl. by rewrite Hget.
  - rewrite Hget. split.
    + intros Hempty. destruct (last keys) as [k |] eqn:Hlast.
      * simpl in Hempty. subst k. apply last_Some in Hlast as [l' Hl'].
        rewrite Hl', Forall_app, Forall_singleton in Hne.
        by destruct Hne as [_ Hne].
      * by apply last_None.
    + by intros ->.
Qed.

Lemma PublicKeyRegistered_log_is_key_history_witness :
  let st0 := deploy (mkEnv 10 1000) 20 in
  let st := run st0 sample_history in
  keys_announced 12 (emitted st0 sample_history) = ["K"] ∧
  publicKeys_at st 12 ≠ "" ∧
  keys_announced 11 (emitted st0 sample_history) = [] ∧
  publicKeys_at st 11 = "".
Proof.
  cbv zeta.
  destruct (PublicKeyRegistered_log_is_key_history (mkEnv 10 1000) 20 sample_history 12)
    as (_ & _ & _ & [H12 _]).
  destruct (PublicKeyRegistered_log_is_key_history (mkEnv 10 1000) 20 sample_history 11)
    as (_ & _ & _ & [_ H11]).
  split; [vm_compute; reflexivity |].
  split; [| split; [vm_compute; reflexivity |]].
  - intros Hempty. pose proof (H12 Hempty) as Hk. vm_compute in Hk. discriminate Hk.
  - apply H11. vm_compute. reflexivity.
Defined.

(** ** Roles *)

(** X3.  On a contract deployed by a non-zero account the owner is never
    the zero address, whatever calls are made; and the relay address is
    never reset to zero: in every reachable storage it is the constructor's
    argument or a non-zero address. *)
Theorem owner_never_zero (env : Env) (relay : address) (txs : list Tx) :
  msg_sender env ≠ 0 →
  let st := run (deploy env relay) txs in
  owner st ≠ 0 ∧ (relayAddress st = relay ∨ relayAddress st ≠ 0).
Proof.
  intros Hd. cbv zeta.
  apply (reachable_ind (λ st, owner st ≠ 0 ∧ (relayAddress st = relay ∨ relayAddress st ≠ 0))).
  - rewrite deploy_unfold. simpl. auto.
  - intros st st' [Ho Hr] Hs. destruct Hs; simpl; auto.
Qed.

Lemma owner_never_zero_witness :
  let st := run (deploy (mkEnv 10 1000) 20) sample_history in
  owner st ≠ 0 ∧ (relayAddress st = 20 ∨ relayAddress st ≠ 0).
Proof.
  apply (owner_never_zero (mkEnv 10 1000) 20 sample_history). simpl. lia.
Defined.

(** X4.  What each operation leaves alone.  A submission ([logSend],
    [logSendFor]) never changes a public key, the owner or the relay
    address.  A registration never changes a record, the counter, an
    index, the owner or the relay address, nor the key of any account
    other than the one it registers for.  [setRelayAddress] changes
    nothing but [relayAddress] and [transferOwnership] nothing but
    [owner]. *)
Theorem operations_touch_only_their_fields (env : Env) (c : Call) (st : ChainMail) :
  let st' := committed st (dispatch env c st) in
  match c with
  | LogSend _ _ | LogSendFor _ _ _ =>
      publicKeys st' = publicKeys st ∧ owner st' = owner st
      ∧ relayAddress st' = relayAddress st
  | RegisterPublicKey _ | RegisterPublicKeyFor _ _ =>
      emails st' = emails st ∧ emailCount st' = emailCount st
      ∧ recipientEmails st' = recipientEmails st
      ∧ senderEmails st' = senderEmails st
      ∧ owner st' = owner st ∧ relayAddress st' = relayAddress st
      ∧ ∀ b, registration_target env c ≠ Some b →
             publicKeys_at st' b = publicKeys_at st b
  | SetRelayAddress _ => set_relayAddress (relayAddress st') st = st'
  | TransferOwnership _ => set_owner (owner st') st = st'
  end.
Proof.
  cbv zeta. destruct c; simpl; contract_cases; split_and?; try done;
    try (by destruct st);
    intros b Hb; rewrite set_publicKeys_at;
    rewrite decide_False by congruence; reflexivity.
Qed.

Lemma operations_touch_only_their_fields_witness :
  let st' := committed sample_state
               (dispatch (mkEnv 11 5000) (RegisterPublicKey "K11") sample_state) in
  publicKeys_at st' 11 = "K11" ∧ publicKeys_at st' 12 = publicKeys_at sample_state 12.
Proof.
  cbv zeta. split; [vm_compute; reflexivity |].
  destruct (operations_touch_only_their_fields
              (mkEnv 11 5000) (RegisterPublicKey "K11") sample_state)
    as (_ & _ & _ & _ & _ & _ & Hother).
  apply (Hother 12). simpl. discriminate.
Defined.

(** ** The indices, entry by entry *)

Lemma StronglySorted_filter {A} (R : relation A) (P : A → Prop)
    `{!∀ x, Decision (P x)} (l : list A) :
  StronglySorted R l → StronglySorted R (filter P l).
Proof.
  induction 1 as [| x l Hs IH Hall]; [constructor |].
  rewrite filter_cons. destruct (decide (P x)); [| exact IH].
  constructor; [exact IH |].
  apply Forall_forall. intros y Hy. apply list_elem_of_filter in Hy as [_ Hy].
  rewrite Forall_forall in Hall. by apply Hall.
Qed.

Lemma StronglySorted_lookup_lt {A} (R : relation A) (l : list A) p q x y :
  StronglySorted R l → l !! p = Some x → l !! q = Some y → (p < q)%nat → R x y.
Proof.
  intros Hs. revert p q. induction Hs as [| z l Hs IH Hall]; intros p q Hp Hq Hlt.
  - by rewrite lookup_nil in Hp.
  - destruct q as [| q]; [lia |]. destruct p as [| p]; simpl in *.
    + simplify_eq. rewrite Forall_forall in Hall.
      apply Hall. by eapply list_elem_of_lookup_2.
    + apply (IH p q); [done | done | lia].
Qed.

Lemma ids_upto_sorted n : StronglySorted N.lt (ids_upto n).
Proof.
  induction n as [| n IH] using N.peano_ind; [constructor |].
  rewrite <- N.add_1_r, ids_upto_succ.
  apply StronglySorted_app_2; [| exact IH | repeat constructor].
  intros x y Hx Hy. apply elem_of_ids_upto in Hx.
  apply list_elem_of_singleton in Hy. lia.
Qed.

Lemma reachable_indices_exact env relay txs :
  indices_exact (run (deploy env relay) txs).
Proof.
  apply (reachable_ind indices_exact).
  - split; intros x; reflexivity.
  - apply step_indices_exact.
Qed.

(** X5.  In every reachable storage the indices point at stored records
    and at nothing else: an id is listed under [a] in [recipientEmails]
    exactly when it lies in [1, emailCount] and the record stored under it
    has recipient [a] (likewise [senderEmails] and the sender); each list is
    strictly increasing, so no id is listed twice; and [getEmail] succeeds
    on every id [getRecipientEmails a] returns, with recipient [a]. *)
Theorem index_entries_are_valid_ids
    (env : Env) (relay : address) (txs : list Tx) (a : address) :
  let st := run (deploy env relay) txs in
  (∀ id, id ∈ recipientEmails_at st a
         ↔ 1 ≤ id ≤ emailCount st ∧ recipient (emails_at st id) = a) ∧
  (∀ id, id ∈ senderEmails_at st a
         ↔ 1 ≤ id ≤ emailCount st ∧ sender (emails_at st id) = a) ∧
  StronglySorted N.lt (recipientEmails_at st a) ∧
  StronglySorted N.lt (senderEmails_at st a) ∧
  (∀ id, id ∈ recipientEmails_at st a →
     ∃ s h t, getEmail id st = Success (s, a, h, t, true) st []).
Proof.
  intros st.
  destruct (reachable_indices_exact env relay txs) as [HR HS]. fold st in HR, HS.
  assert (Hin : ∀ id, id ∈ recipientEmails_at st a
                      ↔ 1 ≤ id ≤ emailCount st ∧ recipient (emails_at st id) = a).
  { intros id. rewrite HR. unfold received_by.
    rewrite list_elem_of_filter, elem_of_ids_upto. tauto. }
  split_and!.
  - exact Hin.
  - intros id. rewrite HS. unfold sent_by.
    rewrite list_elem_of_filter, elem_of_ids_upto. tauto.
  - rewrite HR. apply StronglySorted_filter, ids_upto_sorted.
  - rewrite HS. apply StronglySorted_filter, ids_upto_sorted.
  - intros id Hid. apply Hin in Hid as [Hrange Hrec].
    destruct (reachable_records_dense env relay txs id) as [Hdense _].
    fold st in Hdense. destruct (Hdense Hrange) as (e & He & _ & _ & _ & Hi).
    rewrite getEmail_unfold.
    replace (0 <? id) with true by (symmetry; apply N.ltb_lt; lia).
    replace (id <=? emailCount st) with true by (symmetry; apply N.leb_le; lia).
    simpl. revert Hrec. unfold emails_at. rewrite He. simpl. intros <-.
    rewrite Hi. by eexists _, _, _.
Qed.

Lemma index_entries_are_valid_ids_witness :
  let st := run (deploy (mkEnv 10 1000) 20) sample_history in
  recipientEmails_at st 12 = [1; 2] ∧
  (1 ≤ 2 ≤ emailCount st ∧ recipient (emails_at st 2) = 12) ∧
  ∃ s h t, getEmail 2 st = Success (s, 12, h, t, true) st [].
Proof.
  cbv zeta.
  destruct (index_entries_are_valid_ids (mkEnv 10 1000) 20 sample_history 12)
    as (Hin & _ & _ & _ & Hget).
  assert (H2 : 2 ∈ recipientEmails_at (run (deploy (mkEnv 10 1000) 20) sample_history) 12).
  { vm_compute. apply list_elem_of_further, list_elem_of_here. }
  split; [vm_compute; reflexivity |]. split.
  - apply (proj1 (Hin 2) H2).
  - apply (Hget 2 H2).
Defined.

(** X6.  The zero address holds nothing: in every reachable storage it
    has received no mail, sent no mail and has no public key. *)
Theorem zero_address_holds_nothing (env : Env) (relay : address) (txs : list Tx) :
  let st := run (deploy env relay) txs in
  getRecipientEmails 0 st = Success [] st [] ∧
  getSenderEmails 0 st = Success [] st [] ∧
  getPublicKey 0 st = Success "" st [].
Proof.
  cbv zeta.
  assert (Hinv : let st := run (deploy env relay) txs in
                 recipientEmails_at st 0 = [] ∧ senderEmails_at st 0 = []
                 ∧ publicKeys_at st 0 = "").
  { apply (reachable_ind (λ st, recipientEmails_at st 0 = [] ∧ senderEmails_at st 0 = []
                                ∧ publicKeys_at st 0 = "")).
    - by rewrite deploy_unfold.
    - intros st st' (HR & HS & HK) Hs.
      destruct Hs as [| env' s r h Hs Hr _ _ | u k Hu _ | b _ | b _]; try done.
      + rewrite logged_recipientEmails_at, logged_senderEmails_at.
        rewrite !decide_False by congruence. done.
      + rewrite set_publicKeys_at. rewrite decide_False by congruence. done. }
  destruct Hinv as (HR & HS & HK).
  unfold getRecipientEmails, getSenderEmails, getPublicKey, bind, get, ret; simpl.
  by rewrite HR, HS, HK.
Qed.

(** ** Timestamps *)

Lemma chronological_snoc txs tx :
  chronological (txs ++ [tx]) →
  chronological txs
  ∧ ∀ tx', tx' ∈ txs → block_timestamp (tx_env tx') ≤ block_timestamp (tx_env tx).
Proof.
  unfold chronological. rewrite fmap_app. intros Hs.
  apply StronglySorted_app in Hs as (Hle & Hs & _). split; [exact Hs |].
  intros tx' Hin. apply Hle.
  - apply list_elem_of_fmap. by exists tx'.
  - simpl. apply list_elem_of_here.
Qed.

(** Every stored timestamp is the block timestamp of a transaction of the
    history, and timestamps do not decrease with the id. *)
Lemma reachable_timestamps env relay txs :
  chronological txs →
  let st := run (deploy env relay) txs in
  (∀ i, 1 ≤ i ≤ emailCount st →
     ∃ tx, tx ∈ txs ∧ timestamp (emails_at st i) = block_timestamp (tx_env tx)) ∧
  (∀ i j, 1 ≤ i → i ≤ j → j ≤ emailCount st →
     timestamp (emails_at st i) ≤ timestamp (emails_at st j)).
Proof.
  cbv zeta. induction txs as [| tx txs IH] using rev_ind; intros Hc.
  - rewrite deploy_unfold. simpl. split; intros; lia.
  - apply chronological_snoc in Hc as [Hc Hlast].
    destruct (IH Hc) as [Hfrom Hmono]. clear IH.
    rewrite run_snoc, execute_receipt.
    set (st := run (deploy env relay) txs) in *.
    assert (Hkeep : (∀ i, 1 ≤ i ≤ emailCount st →
                       ∃ tx0, tx0 ∈ txs ++ [tx]
                              ∧ timestamp (emails_at st i) = block_timestamp (tx_env tx0))).
    { intros i Hi. destruct (Hfrom i Hi) as (tx0 & Hin & Heq).
      exists tx0. split; [| exact Heq]. apply elem_of_app. by left. }
    destruct (receipt_cases st tx)
      as [[e Hr] | [(s & r & h & _ & _ & _ & _ & _ & Hr)
         | [(u & k & _ & _ & _ & Hr) | [(a & _ & _ & _ & Hr) | (a & _ & _ & _ & Hr)]]]];
      rewrite Hr; simpl; try (split; [exact Hkeep | exact Hmono]).
    split.
    + intros i Hi. destruct (decide (i = emailCount st + 1)) as [-> | Hne].
      * rewrite logged_emails_at_new. simpl. exists tx. split; [| reflexivity].
        apply elem_of_app. right. apply list_elem_of_here.
      * rewrite logged_emails_at_old by done. apply Hkeep. lia.
    + intros i j Hi Hij Hj. destruct (decide (j = emailCount st + 1)) as [-> | Hne].
      * rewrite logged_emails_at_new. simpl.
        destruct (decide (i = emailCount st + 1)) as [-> | Hne'].
        -- rewrite logged_emails_at_new. simpl. lia.
        -- rewrite logged_emails_at_old by done.
           destruct (Hfrom i) as (tx0 & Hin & ->); [lia |]. by apply Hlast.
      * rewrite !logged_emails_at_old by lia. apply Hmono; lia.
Qed.

(** X7.  When the block timestamps of a history do not go back, the
    stored records are in chronological order: timestamps do not decrease
    with the id, and in every per-account index an entry listed earlier has
    a timestamp no later than an entry listed after it. *)
Theorem records_and_indices_chronological
    (env : Env) (relay : address) (txs : list Tx) :
  chronological txs →
  let st := run (deploy env relay) txs in
  (∀ i j, 1 ≤ i → i ≤ j → j ≤ emailCount st →
     timestamp (emails_at st i) ≤ timestamp (emails_at st j)) ∧
  (∀ a p q i j, (p ≤ q)%nat →
     recipientEmails_at st a !! p = Some i →
     recipientEmails_at st a !! q = Some j →
     timestamp (emails_at st i) ≤ timestamp (emails_at st j)) ∧
  (∀ a p q i j, (p ≤ q)%nat →
     senderEmails_at st a !! p = Some i →
     senderEmails_at st a !! q = Some j →
     timestamp (emails_at st i) ≤ timestamp (emails_at st j)).
Proof.
  intros Hc st.
  destruct (reachable_timestamps env relay txs Hc) as [_ Hmono]. fold st in Hmono.
  destruct (reachable_indices_exact env relay txs) as [HR HS]. fold st in HR, HS.
  assert (Hidx : ∀ (l : list N) p q i j,
            StronglySorted N.lt l → (∀ id, id ∈ l → 1 ≤ id ≤ emailCount st) →
            (p ≤ q)%nat → l !! p = Some i → l !! q = Some j →
            timestamp (emails_at st i) ≤ timestamp (emails_at st j)).
  { intros l p q i j Hs Hrange Hpq Hp Hq.
    destruct (decide (p = q)) as [-> | Hne].
    - rewrite Hp in Hq. simplify_eq. lia.
    - assert (i < j) by (eapply (StronglySorted_lookup_lt N.lt l p q); eauto; lia).
      apply list_elem_of_lookup_2 in Hp, Hq.
      apply Hrange in Hp, Hq. apply Hmono; lia. }
  split; [exact Hmono |]. split.
  - intros a p q i j. rewrite HR. apply Hidx.
    + apply StronglySorted_filter, ids_upto_sorted.
    + intros id Hid. unfold received_by in Hid.
      apply list_elem_of_filter in Hid as [_ Hid]. by apply elem_of_ids_upto.
  - intros a p q i j. rewrite HS. apply Hidx.
    + apply StronglySorted_filter, ids_upto_sorted.
    + intros id Hid. unfold sent_by in Hid.
      apply list_elem_of_filter in Hid as [_ Hid]. by apply elem_of_ids_upto.
Qed.

Lemma records_and_indices_chronological_witness :
  let st := run (deploy (mkEnv 10 1000) 20) sample_history in
  timestamp (emails_at st 1) ≤ timestamp (emails_at st 3).
Proof.
  cbv zeta.
  assert (Hc : chronological sample_history).
  { unfold chronological. simpl.
    repeat (constructor; [| repeat (constructor; [vm_compute; discriminate |]); constructor]).
    constructor. }
  destruct (records_and_indices_chronological (mkEnv 10 1000) 20 sample_history Hc)
    as (Hmono & _).
  apply Hmono; vm_compute; discriminate.
Defined.

(** * Further properties of the send-email endpoint *)

Section SendEmailEndpoint.

Variable below_minimum : N → bool.
Variable EmailSent_topic : string.
Variable Number : N → N.
Variable w : Relay.World.

(** X8.  The endpoint answers 400 exactly when the request body could be
    read and one of [recipientAddress], [ipfsHash], [userAddress] is
    missing or falsy; this check comes before every other one, so the
    answer is then "Missing required fields" whatever the configuration,
    and the ledger is not contacted. *)
Theorem send_email_status_400 :
  let out := Relay.POST below_minimum EmailSent_topic Number w in
  (Relay.status (fst out) = 400
   ↔ ∃ request, Relay.request_json w = Relay.Returns request
                ∧ incomplete request = true) ∧
  (Relay.status (fst out) = 400 →
   out = (Relay.json (Relay.ErrorBody "Missing required fields") 400, [])).
Proof.
  cbv zeta. unfold incomplete. split; [split |].
  - handler_cases; intros Hst; try discriminate Hst; by eexists.
  - intros (request & Hreq & Hinc). handler_cases; try reflexivity; congruence.
  - handler_cases; intros Hst; try discriminate Hst; reflexivity.
Qed.

(** X9.  The endpoint contacts the ledger in a fixed order and submits
    at most once: its interactions are a balance query, then one
    submission, then the wait for the receipt of the transaction
    submitted, cut short at the first step that fails.  The balance
    queried is that of the wallet made from the configured relay key, on
    the configured RPC endpoint.  The submission is made only with a
    balance that passed the minimum test and carries the request's
    [userAddress] as sender, its [recipientAddress] and its [ipfsHash], to
    the configured contract address.  A 200 answer is given only after all
    three steps and reports the hash and the gas of the receipt awaited.
    The [emailId] it reports is always 0: the ABI the handler binds the
    contract to declares no event, so [parseLog] describes no log, the
    [EmailSent] log of the receipt included. *)
Theorem send_email_interactions :
  let out := Relay.POST below_minimum EmailSent_topic Number w in
  (snd out = []
   ∨ ∃ key rpc wallet,
       Relay.configured (Relay.RELAY_WALLET_PRIVATE_KEY w) = Some key
       ∧ Relay.configured (Relay.NEXT_PUBLIC_BLOCKDAG_RPC_URL w) = Some rpc
       ∧ Relay.new_Wallet w key rpc = Relay.Returns wallet
       ∧ (snd out = [Relay.BalanceQueried wallet]
          ∨ ∃ request c balance,
              Relay.request_json w = Relay.Returns request
              ∧ Relay.configured (Relay.NEXT_PUBLIC_CHAINMAIL_CONTRACT_ADDRESS w) = Some c
              ∧ Relay.getBalance w rpc wallet = Relay.Returns balance
              ∧ below_minimum balance = false
              ∧ let submission :=
                  Relay.Submitted c (Relay.userAddress request)
                    (Relay.recipientAddress request) (Relay.ipfsHash request) in
                snd out = [Relay.BalanceQueried wallet; submission]
                ∨ ∃ tx,
                    Relay.contract_logSendFor w c (Relay.userAddress request)
                      (Relay.recipientAddress request) (Relay.ipfsHash request)
                    = Relay.Returns tx
                    ∧ snd out = [Relay.BalanceQueried wallet; submission;
                                 Relay.ReceiptAwaited tx])) ∧
  (Relay.status (fst out) = 200 →
   ∃ key rpc c wallet balance request tx receipt,
     Relay.configured (Relay.RELAY_WALLET_PRIVATE_KEY w) = Some key
     ∧ Relay.configured (Relay.NEXT_PUBLIC_BLOCKDAG_RPC_URL w) = Some rpc
     ∧ Relay.configured (Relay.NEXT_PUBLIC_CHAINMAIL_CONTRACT_ADDRESS w) = Some c
     ∧ Relay.new_Wallet w key rpc = Relay.Returns wallet
     ∧ Relay.getBalance w rpc wallet = Relay.Returns balance
     ∧ below_minimum balance = false
     ∧ Relay.request_json w = Relay.Returns request
     ∧ incomplete request = false
     ∧ Relay.new_Contract w c wallet = Relay.Returns tt
     ∧ Relay.contract_logSendFor w c (Relay.userAddress request)
         (Relay.recipientAddress request) (Relay.ipfsHash request) = Relay.Returns tx
     ∧ Relay.wait w tx = Relay.Returns receipt
     ∧ out = (Relay.json (Relay.SuccessBody 0 (Relay.hash receipt)
                            (pretty (Relay.gasUsed receipt))) 200,
              [Relay.BalanceQueried wallet;
               Relay.Submitted c (Relay.userAddress request)
                 (Relay.recipientAddress request) (Relay.ipfsHash request);
               Relay.ReceiptAwaited tx])) ∧
  (∀ receipt trace,
     Relay.extract_emailId EmailSent_topic Number w receipt trace = Relay.Done 0 trace).
Proof.
  cbv zeta.
  assert (Hzero : ∀ receipt trace,
    Relay.extract_emailId EmailSent_topic Number w receipt trace = Relay.Done 0 trace).
  { intros receipt trace.
    unfold Relay.extract_emailId, Relay.parseLog_args0, Relay.getEvent,
      Relay.CHAINMAIL_ABI, Relay.andThen, Relay.await, Relay.pure.
    destruct (find _ (Relay.logs receipt)) as [log |]; [| reflexivity].
    destruct (Relay.topics log); reflexivity. }
  split_and!; [| | exact Hzero];
    unfold incomplete, Relay.POST, Relay.try_block, Relay.andThen, Relay.await,
      Relay.perform, Relay.pure.
  - destruct (Relay.request_json w) as [request | t]; simpl; [| by left].
    destruct (negb (Relay.truthy (Relay.recipientAddress request))
              || negb (Relay.truthy (Relay.ipfsHash request))
              || negb (Relay.truthy (Relay.userAddress request))); simpl; [by left |].
    destruct (Relay.configured (Relay.RELAY_WALLET_PRIVATE_KEY w)) as [key |];
      simpl; [| by left].
    case_bool_decide; simpl; [by left |].
    destruct (Relay.configured (Relay.NEXT_PUBLIC_BLOCKDAG_RPC_URL w)) as [rpc |];
      simpl; [| by left].
    destruct (Relay.configured (Relay.NEXT_PUBLIC_CHAINMAIL_CONTRACT_ADDRESS w)) as [c |];
      simpl; [| by left].
    destruct (Relay.new_Wallet w key rpc) as [wallet | t] eqn:Hwallet; simpl; [| by left].
    right. exists key, rpc, wallet. split_and!; [done | done | done |].
    destruct (Relay.getBalance w rpc wallet) as [balance | t] eqn:Hbalance; simpl;
      [| by left].
    destruct (below_minimum balance) eqn:Hlow; simpl; [by left |].
    destruct (Relay.new_Contract w c wallet) as [[] | t]; simpl; [| by left].
    right. exists request, c, balance. split_and!; [done | done | done | done |].
    destruct (Relay.contract_logSendFor w c _ _ _) as [tx | t] eqn:Hsubmit; simpl;
      [| by left].
    right. exists tx. split; [done |].
    destruct (Relay.wait w tx) as [receipt | t]; simpl; [| done].
    by rewrite Hzero.
  - destruct (Relay.request_json w) as [request | t]; simpl; [| discriminate].
    destruct (negb (Relay.truthy (Relay.recipientAddress request))
              || negb (Relay.truthy (Relay.ipfsHash request))
              || negb (Relay.truthy (Relay.userAddress request))) eqn:Hcomplete;
      simpl; [discriminate |].
    destruct (Relay.configured (Relay.RELAY_WALLET_PRIVATE_KEY w)) as [key |];
      simpl; [| discriminate].
    case_bool_decide; simpl; [discriminate |].
    destruct (Relay.configured (Relay.NEXT_PUBLIC_BLOCKDAG_RPC_URL w)) as [rpc |];
      simpl; [| discriminate].
    destruct (Relay.configured (Relay.NEXT_PUBLIC_CHAINMAIL_CONTRACT_ADDRESS w)) as [c |];
      simpl; [| discriminate].
    destruct (Relay.new_Wallet w key rpc) as [wallet | t] eqn:Hwallet; simpl;
      [| discriminate].
    destruct (Relay.getBalance w rpc wallet) as [balance | t] eqn:Hbalance; simpl;
      [| discriminate].
    destruct (below_minimum balance) eqn:Hlow; simpl; [discriminate |].
    destruct (Relay.new_Contract w c wallet) as [[] | t] eqn:Hcontract; simpl;
      [| discriminate].
    destruct (Relay.contract_logSendFor w c _ _ _) as [tx | t] eqn:Hsubmit; simpl;
      [| discriminate].
    destruct (Relay.wait w tx) as [receipt | t] eqn:Hwait; simpl; [| discriminate].
    rewrite Hzero. simpl. intros _.
    exists key, rpc, c, wallet, balance, request, tx, receipt. by split_and!.
Qed.

End SendEmailEndpoint.

Lemma send_email_status_400_witness :
  let w := Relay.mkWorld
             (Relay.Returns (Relay.mkRequestBody
                (Relay.JsString "0xB") (Relay.JsString "") (Relay.JsString "0xA")))
             None None None
             (Relay.new_Wallet unconfigured_world) (Relay.getBalance unconfigured_world)
             (Relay.new_Contract unconfigured_world)
             (Relay.contract_logSendFor unconfigured_world)
             (Relay.wait unconfigured_world) (Relay.decodeEventLog_arg0 unconfigured_world) in
  Relay.POST below_0_001_ether "0xtopic" id w
  = (Relay.json (Relay.ErrorBody "Missing required fields") 400, []).
Proof.
  cbv zeta.
  match goal with
  | |- Relay.POST _ _ _ ?w = _ =>
      destruct (send_email_status_400 below_0_001_ether "0xtopic" id w) as [Hiff Hout]
  end.
  apply Hout. apply Hiff. eexists. split; reflexivity.
Defined.

Lemma send_email_interactions_witness :
  Relay.POST below_0_001_ether "0xtopic" id (sample_world (Relay.Returns (10 ^ 18)))
  = (Relay.json (Relay.SuccessBody 0 "0xtx" "21000") 200,
     [Relay.BalanceQueried "0xRelay";
      Relay.Submitted "0xC" (Relay.JsString "0xA") (Relay.JsString "0xB")
        (Relay.JsString "cid1");
      Relay.ReceiptAwaited (Relay.mkTransactionResponse "0xtx")]).
Proof.
  destruct (send_email_interactions below_0_001_ether "0xtopic" id
              (sample_world (Relay.Returns (10 ^ 18)))) as (_ & Hok & _).
  destruct (Hok eq_refl)
    as (key & rpc & c & wallet & balance & request & tx & receipt
        & Hkey & Hrpc & Hc & Hwallet & _ & _ & Hreq & _ & _ & Htx & Hreceipt & ->).
  vm_compute in Hkey, Hrpc, Hc, Hreq.
  injection Hkey as <-. injection Hrpc as <-. injection Hc as <-. injection Hreq as <-.
  vm_compute in Hwallet. injection Hwallet as <-.
  vm_compute in Htx. injection Htx as <-.
  vm_compute in Hreceipt. injection Hreceipt as <-.
  reflexivity.
Defined.

(** * Properties of the other endpoints and of the client *)

(** Splits a run in the [App] monad along the answers of its
    collaborators, innermost call first. *)
Ltac app_cases :=
  unfold App.catch, App.andThen, App.await, App.perform, App.pure, App.throw,
    App.rethrow;
  repeat (match goal with
          | |- context [match find ?f ?l with _ => _ end] =>
              destruct (find f l) eqn:?
          | |- context [match ?x with _ => _ end] =>
              lazymatch x with
              | context [match _ with _ => _ end] => fail
              | _ => destruct x eqn:?
              end
          end; simpl in *).

Lemma both_truthy (a b : bool) : negb a || negb b = false → a && b = true.
Proof. by destruct a, b. Qed.

(** ** The register-key endpoint *)

Section RegisterKeyEndpoint.

Variable below_minimum : N → bool.
Variable w : App.RegisterKey.World.

(** X10.  The register-key endpoint submits to the ledger only after all
    its guards passed: the request is readable with a public key and a user
    address, the relay key, RPC endpoint and contract address are
    configured, the wallet made from the relay key exists, the balance the
    provider reports for that wallet passed the minimum test, and the
    contract was bound to that wallet.  It submits at most once, with the
    request's [userAddress] and [publicKey] in that order, after the
    balance query.  It answers 200 only when that submission returned a
    transaction and the wait for that very transaction returned a receipt,
    and then with the hash and gas of that receipt; when the submission or
    the wait throws, the answer is 500 with what was thrown. *)
Theorem register_key_submits_after_guards :
  let out := App.RegisterKey.POST below_minimum w in
  (register_key_submits (snd out) = true ∨ App.RegisterKey.status (fst out) = 200 →
   ∃ request key rpc c wallet balance,
     App.RegisterKey.request_json w = Relay.Returns request
     ∧ complete_registration request = true
     ∧ Relay.configured (App.RegisterKey.RELAY_WALLET_PRIVATE_KEY w) = Some key
     ∧ key ≠ "your_relay_wallet_private_key_here"
     ∧ Relay.configured (App.RegisterKey.NEXT_PUBLIC_BLOCKDAG_RPC_URL w) = Some rpc
     ∧ Relay.configured (App.RegisterKey.NEXT_PUBLIC_CHAINMAIL_CONTRACT_ADDRESS w) = Some c
     ∧ App.RegisterKey.new_Wallet w key rpc = Relay.Returns wallet
     ∧ App.RegisterKey.getBalance w rpc wallet = Relay.Returns balance
     ∧ below_minimum balance = false
     ∧ App.RegisterKey.new_Contract w c wallet = Relay.Returns tt
     ∧ let submission :=
         App.RegisterKey.Submitted c (App.RegisterKey.userAddress request)
           (App.RegisterKey.publicKey request) in
       match App.RegisterKey.contract_registerPublicKeyFor w c
               (App.RegisterKey.userAddress request) (App.RegisterKey.publicKey request) with
       | Relay.Throws t =>
           out = (App.RegisterKey.json
                    (App.RegisterKey.ErrorBody (App.message_or "Unknown error" t)) 500,
                  [App.RegisterKey.BalanceQueried wallet; submission])
       | Relay.Returns tx =>
           match App.RegisterKey.wait w tx with
           | Relay.Throws t =>
               out = (App.RegisterKey.json
                        (App.RegisterKey.ErrorBody (App.message_or "Unknown error" t)) 500,
                      [App.RegisterKey.BalanceQueried wallet; submission;
                       App.RegisterKey.ReceiptAwaited tx])
           | Relay.Returns receipt =>
               out = (App.RegisterKey.json
                        (App.RegisterKey.SuccessBody (Relay.hash receipt)
                           (pretty (Relay.gasUsed receipt))) 200,
                      [App.RegisterKey.BalanceQueried wallet; submission;
                       App.RegisterKey.ReceiptAwaited tx])
           end
       end) ∧
  (App.RegisterKey.status (fst out) = 200 →
   ∃ request c wallet tx receipt,
     App.RegisterKey.request_json w = Relay.Returns request
     ∧ Relay.configured (App.RegisterKey.NEXT_PUBLIC_CHAINMAIL_CONTRACT_ADDRESS w) = Some c
     ∧ App.RegisterKey.contract_registerPublicKeyFor w c
         (App.RegisterKey.userAddress request) (App.RegisterKey.publicKey request)
       = Relay.Returns tx
     ∧ App.RegisterKey.wait w tx = Relay.Returns receipt
     ∧ out = (App.RegisterKey.json
                (App.RegisterKey.SuccessBody (Relay.hash receipt)
                   (pretty (Relay.gasUsed receipt))) 200,
              [App.RegisterKey.BalanceQueried wallet;
               App.RegisterKey.Submitted c (App.RegisterKey.userAddress request)
                 (App.RegisterKey.publicKey request);
               App.RegisterKey.ReceiptAwaited tx])).
Proof.
  cbv zeta. unfold register_key_submits, complete_registration.
  unfold App.RegisterKey.POST, App.RegisterKey.try_block.
  unfold App.andThen, App.await, App.perform, App.pure.
  destruct (App.RegisterKey.request_json w) as [request | t]; simpl.
  2: { split; [intros [Hs | Hs] | intros Hs]; discriminate Hs. }
  destruct (negb (Relay.truthy (App.RegisterKey.publicKey request))
            || negb (Relay.truthy (App.RegisterKey.userAddress request))) eqn:Hfields;
    simpl.
  { split; [intros [Hs | Hs] | intros Hs]; discriminate Hs. }
  destruct (Relay.configured (App.RegisterKey.RELAY_WALLET_PRIVATE_KEY w)) as [key |];
    simpl.
  2: { split; [intros [Hs | Hs] | intros Hs]; discriminate Hs. }
  case_bool_decide as Hplaceholder; simpl.
  { split; [intros [Hs | Hs] | intros Hs]; discriminate Hs. }
  destruct (Relay.configured (App.RegisterKey.NEXT_PUBLIC_BLOCKDAG_RPC_URL w)) as [rpc |];
    simpl.
  2: { split; [intros [Hs | Hs] | intros Hs]; discriminate Hs. }
  destruct (Relay.configured (App.RegisterKey.NEXT_PUBLIC_CHAINMAIL_CONTRACT_ADDRESS w))
    as [c |]; simpl.
  2: { split; [intros [Hs | Hs] | intros Hs]; discriminate Hs. }
  destruct (App.RegisterKey.new_Wallet w key rpc) as [wallet | t] eqn:Hwallet; simpl.
  2: { split; [intros [Hs | Hs] | intros Hs]; discriminate Hs. }
  destruct (App.RegisterKey.getBalance w rpc wallet) as [balance | t] eqn:Hbalance; simpl.
  2: { split; [intros [Hs | Hs] | intros Hs]; discriminate Hs. }
  destruct (below_minimum balance) eqn:Hlow; simpl.
  { split; [intros [Hs | Hs] | intros Hs]; discriminate Hs. }
  destruct (App.RegisterKey.new_Contract w c wallet) as [[] | t] eqn:Hcontract; simpl.
  2: { split; [intros [Hs | Hs] | intros Hs]; discriminate Hs. }
  assert (Hcomplete : Relay.truthy (App.RegisterKey.publicKey request)
                      && Relay.truthy (App.RegisterKey.userAddress request) = true).
  { apply orb_false_iff in Hfields as [Hk Hu].
    apply negb_false_iff in Hk, Hu. by rewrite Hk, Hu. }
  destruct (App.RegisterKey.contract_registerPublicKeyFor w c _ _) as [tx | t] eqn:Hsubmit;
    simpl.
  2: { split; [| intros Hs; discriminate Hs]. intros _.
       exists request, key, rpc, c, wallet, balance.
       split_and!; try done. by rewrite Hsubmit. }
  destruct (App.RegisterKey.wait w tx) as [receipt | t] eqn:Hwait; simpl.
  - split.
    + intros _. exists request, key, rpc, c, wallet, balance.
      split_and!; try done. by rewrite Hsubmit, Hwait.
    + intros _. by exists request, c, wallet, tx, receipt.
  - split; [| intros Hs; discriminate Hs]. intros _.
    exists request, key, rpc, c, wallet, balance.
    split_and!; try done. by rewrite Hsubmit, Hwait.
Qed.

End RegisterKeyEndpoint.

Lemma register_key_submits_after_guards_witness :
  let w := sample_register_world (Relay.Returns (10 ^ 18)) in
  let out := App.RegisterKey.POST below_0_001_ether w in
  ∃ request c wallet tx receipt,
    App.RegisterKey.request_json w = Relay.Returns request
    ∧ Relay.configured (App.RegisterKey.NEXT_PUBLIC_CHAINMAIL_CONTRACT_ADDRESS w) = Some c
    ∧ App.RegisterKey.contract_registerPublicKeyFor w c
        (App.RegisterKey.userAddress request) (App.RegisterKey.publicKey request)
      = Relay.Returns tx
    ∧ App.RegisterKey.wait w tx = Relay.Returns receipt
    ∧ out = (App.RegisterKey.json
               (App.RegisterKey.SuccessBody (Relay.hash receipt)
                  (pretty (Relay.gasUsed receipt))) 200,
             [App.RegisterKey.BalanceQueried wallet;
              App.RegisterKey.Submitted c (App.RegisterKey.userAddress request)
                (App.RegisterKey.publicKey request);
              App.RegisterKey.ReceiptAwaited tx]).
Proof.
  cbv zeta.
  apply (register_key_submits_after_guards below_0_001_ether
           (sample_register_world (Relay.Returns (10 ^ 18)))).
  vm_compute. reflexivity.
Defined.

(** X11.  The send-email and the register-key endpoints apply the same
    guards.  Run in the same environment (same configuration, same wallet,
    provider and contract bindings) on requests that are both complete,
    either both reach their submission or neither does, and when they do
    not they give the same status and the same error message. *)
Theorem relay_endpoints_share_guards
    (below_minimum : N → bool) (EmailSent_topic : string) (Number : N → N)
    (w : Relay.World) (w' : App.RegisterKey.World) :
  same_environment w w' →
  (∃ request, Relay.request_json w = Relay.Returns request
              ∧ incomplete request = false) →
  (∃ request', App.RegisterKey.request_json w' = Relay.Returns request'
               ∧ complete_registration request' = true) →
  let out := Relay.POST below_minimum EmailSent_topic Number w in
  let out' := App.RegisterKey.POST below_minimum w' in
  send_email_submits (snd out) = register_key_submits (snd out') ∧
  (send_email_submits (snd out) = false →
   Relay.status (fst out) = App.RegisterKey.status (fst out')
   ∧ send_email_error (fst out) = register_key_error (fst out')).
Proof.
  intros (Hkey & Hrpc & Hc & Hwallet & Hbal & Hcontract)
         (request & Hreq & Hcomplete) (request' & Hreq' & Hcomplete').
  cbv zeta. unfold incomplete in Hcomplete.
  unfold complete_registration in Hcomplete'.
  assert (Hreg : negb (Relay.truthy (App.RegisterKey.publicKey request'))
                 || negb (Relay.truthy (App.RegisterKey.userAddress request')) = false).
  { apply andb_true_iff in Hcomplete' as [-> ->]. reflexivity. }
  unfold send_email_submits, register_key_submits, send_email_error, register_key_error.
  unfold App.RegisterKey.POST, App.RegisterKey.try_block.
  unfold Relay.POST, Relay.try_block, Relay.extract_emailId, Relay.andThen,
    Relay.await, Relay.perform, Relay.pure.
  unfold App.andThen, App.await, App.perform, App.pure.
  rewrite Hreq, Hreq', Hkey, Hrpc, Hc, Hwallet, Hbal, Hcontract.
  cbv beta iota. rewrite Hcomplete, Hreg.
  app_cases;
    (split; [reflexivity | intros Hno; try discriminate Hno; split; reflexivity]).
Qed.

Lemma relay_endpoints_share_guards_witness :
  let out := Relay.POST below_0_001_ether "0xtopic" id (sample_world (Relay.Returns 5)) in
  let out' := App.RegisterKey.POST below_0_001_ether (sample_register_world (Relay.Returns 5)) in
  send_email_submits (snd out) = false ∧
  register_key_submits (snd out') = false ∧
  send_email_error (fst out) = Some "Relay wallet balance too low" ∧
  register_key_error (fst out') = Some "Relay wallet balance too low".
Proof.
  cbv zeta.
  assert (Henv : same_environment (sample_world (Relay.Returns 5))
                   (sample_register_world (Relay.Returns 5))) by (by split_and!).
  destruct (relay_endpoints_share_guards below_0_001_ether "0xtopic" id
              (sample_world (Relay.Returns 5)) (sample_register_world (Relay.Returns 5))
              Henv) as [Hsame Herr].
  { eexists. split; reflexivity. }
  { eexists. split; reflexivity. }
  assert (Hno : send_email_submits
                  (snd (Relay.POST below_0_001_ether "0xtopic" id
                          (sample_world (Relay.Returns 5)))) = false)
    by (vm_compute; reflexivity).
  destruct (Herr Hno) as [_ Hmsg].
  split; [exact Hno |]. split; [by rewrite <- Hsame |].
  split; [vm_compute; reflexivity |]. rewrite <- Hmsg. vm_compute. reflexivity.
Defined.

(** ** The get-public-key endpoint *)

Section GetPublicKeyEndpoint.

Variable w : App.GetPublicKey.World.

(** X12.  The get-public-key endpoint reads the ledger at most once, and
    only for the address of the request with the configured endpoint and
    contract.  A missing or empty [address] parameter is answered 400
    "Missing address parameter", and with an address a missing RPC endpoint
    or contract address is answered 500 "Blockchain configuration
    missing", both without any read.  It answers 200 exactly when address
    and configuration are there, the contract binding was made and its
    [getPublicKey] returned, and then with the returned key unchanged, the
    empty key of an unregistered account included.  When the binding or
    the read throws, the answer is 500 with the message of the thrown
    [Error], or "Unknown error". *)
Theorem get_public_key_endpoint :
  let out := App.GetPublicKey.GET w in
  (Relay.configured (App.GetPublicKey.address_param w) = None →
   out = (App.GetPublicKey.json
            (App.GetPublicKey.ErrorBody "Missing address parameter") 400, [])) ∧
  (∀ address,
     Relay.configured (App.GetPublicKey.address_param w) = Some address →
     Relay.configured (App.GetPublicKey.NEXT_PUBLIC_BLOCKDAG_RPC_URL w) = None
     ∨ Relay.configured (App.GetPublicKey.NEXT_PUBLIC_CHAINMAIL_CONTRACT_ADDRESS w) = None →
     out = (App.GetPublicKey.json
              (App.GetPublicKey.ErrorBody "Blockchain configuration missing") 500, [])) ∧
  (∀ address rpc c,
     Relay.configured (App.GetPublicKey.address_param w) = Some address →
     Relay.configured (App.GetPublicKey.NEXT_PUBLIC_BLOCKDAG_RPC_URL w) = Some rpc →
     Relay.configured (App.GetPublicKey.NEXT_PUBLIC_CHAINMAIL_CONTRACT_ADDRESS w) = Some c →
     (∀ t, App.GetPublicKey.new_Contract w c rpc = Relay.Throws t →
           out = (App.GetPublicKey.json
                    (App.GetPublicKey.ErrorBody (App.message_or "Unknown error" t)) 500,
                  []))
     ∧ (App.GetPublicKey.new_Contract w c rpc = Relay.Returns tt →
        (∀ key, App.GetPublicKey.contract_getPublicKey w c rpc address = Relay.Returns key →
                out = (App.GetPublicKey.json (App.GetPublicKey.PublicKeyBody key) 200,
                       [App.GetPublicKey.KeyRead c rpc address]))
        ∧ (∀ t, App.GetPublicKey.contract_getPublicKey w c rpc address = Relay.Throws t →
                out = (App.GetPublicKey.json
                         (App.GetPublicKey.ErrorBody (App.message_or "Unknown error" t))
                         500,
                       [App.GetPublicKey.KeyRead c rpc address])))) ∧
  (App.GetPublicKey.status (fst out) = 200
   ↔ ∃ address rpc c key,
       Relay.configured (App.GetPublicKey.address_param w) = Some address
       ∧ Relay.configured (App.GetPublicKey.NEXT_PUBLIC_BLOCKDAG_RPC_URL w) = Some rpc
       ∧ Relay.configured (App.GetPublicKey.NEXT_PUBLIC_CHAINMAIL_CONTRACT_ADDRESS w) = Some c
       ∧ App.GetPublicKey.new_Contract w c rpc = Relay.Returns tt
       ∧ App.GetPublicKey.contract_getPublicKey w c rpc address = Relay.Returns key) ∧
  (App.GetPublicKey.status (fst out) = 400
   ↔ Relay.configured (App.GetPublicKey.address_param w) = None) ∧
  (App.GetPublicKey.status (fst out) = 200
   ∨ App.GetPublicKey.status (fst out) = 400
   ∨ App.GetPublicKey.status (fst out) = 500).
Proof.
  cbv zeta. unfold App.GetPublicKey.GET, App.GetPublicKey.try_block.
  unfold App.andThen, App.await, App.perform, App.pure.
  split_and!.
  - intros ->. reflexivity.
  - intros address -> [-> | ->]; [reflexivity |].
    by destruct (Relay.configured (App.GetPublicKey.NEXT_PUBLIC_BLOCKDAG_RPC_URL w)).
  - intros address rpc c -> -> ->. split; [by intros t -> |].
    intros ->. simpl. split; [by intros key -> | by intros t ->].
  - split.
    + destruct (Relay.configured (App.GetPublicKey.address_param w)) as [address |];
        [| discriminate].
      destruct (Relay.configured (App.GetPublicKey.NEXT_PUBLIC_BLOCKDAG_RPC_URL w))
        as [rpc |]; [| discriminate].
      destruct (Relay.configured (App.GetPublicKey.NEXT_PUBLIC_CHAINMAIL_CONTRACT_ADDRESS w))
        as [c |]; [| discriminate].
      destruct (App.GetPublicKey.new_Contract w c rpc) as [[] | t] eqn:Hcontract;
        [| discriminate].
      destruct (App.GetPublicKey.contract_getPublicKey w c rpc address) as [key | t]
        eqn:Hread; [| discriminate].
      intros _. by exists address, rpc, c, key.
    + intros (address & rpc & c & key & -> & -> & -> & -> & Hread). simpl.
      by rewrite Hread.
  - split.
    + destruct (Relay.configured (App.GetPublicKey.address_param w)) as [address |];
        [| done].
      destruct (Relay.configured (App.GetPublicKey.NEXT_PUBLIC_BLOCKDAG_RPC_URL w));
        [| discriminate].
      destruct (Relay.configured (App.GetPublicKey.NEXT_PUBLIC_CHAINMAIL_CONTRACT_ADDRESS w))
        as [c |]; [| discriminate].
      destruct (App.GetPublicKey.new_Contract w c _) as [[] | t]; [| discriminate].
      simpl. destruct (App.GetPublicKey.contract_getPublicKey w c _ address);
        discriminate.
    + intros ->. reflexivity.
  - destruct (Relay.configured (App.GetPublicKey.address_param w)) as [address |];
      [| by (right; left)].
    destruct (Relay.configured (App.GetPublicKey.NEXT_PUBLIC_BLOCKDAG_RPC_URL w));
      [| by (right; right)].
    destruct (Relay.configured (App.GetPublicKey.NEXT_PUBLIC_CHAINMAIL_CONTRACT_ADDRESS w))
      as [c |]; [| by (right; right)].
    destruct (App.GetPublicKey.new_Contract w c _) as [[] | t]; [| by (right; right)].
    simpl. destruct (App.GetPublicKey.contract_getPublicKey w c _ address);
      [by left | by (right; right)].
Qed.

End GetPublicKeyEndpoint.

Lemma get_public_key_endpoint_witness :
  (let w := App.GetPublicKey.mkWorld (Some "") (Some "http://rpc") (Some "0xC")
              (λ _ _, Relay.Returns tt) (λ _ _ _, Relay.Returns "KEY") in
   App.GetPublicKey.GET w
   = (App.GetPublicKey.json (App.GetPublicKey.ErrorBody "Missing address parameter") 400,
      [])) ∧
  (let w := App.GetPublicKey.mkWorld (Some "0xA") (Some "http://rpc") None
              (λ _ _, Relay.Returns tt) (λ _ _ _, Relay.Returns "KEY") in
   App.GetPublicKey.GET w
   = (App.GetPublicKey.json
        (App.GetPublicKey.ErrorBody "Blockchain configuration missing") 500, [])) ∧
  (let w := App.GetPublicKey.mkWorld (Some "0xA") (Some "http://rpc") (Some "0xC")
              (λ _ _, Relay.Returns tt) (λ _ _ _, Relay.Returns "") in
   App.GetPublicKey.GET w
   = (App.GetPublicKey.json (App.GetPublicKey.PublicKeyBody "") 200,
      [App.GetPublicKey.KeyRead "0xC" "http://rpc" "0xA"])).
Proof.
  cbv zeta. split_and!.
  - match goal with
    | |- App.GetPublicKey.GET ?w = _ =>
        destruct (get_public_key_endpoint w) as (Hmissing & _)
    end.
    apply Hmissing. reflexivity.
  - match goal with
    | |- App.GetPublicKey.GET ?w = _ =>
        destruct (get_public_key_endpoint w) as (_ & Hconfiguration & _)
    end.
    apply (Hconfiguration "0xA"); [reflexivity | right; reflexivity].
  - match goal with
    | |- App.GetPublicKey.GET ?w = _ =>
        destruct (get_public_key_endpoint w) as (_ & _ & Hread & _)
    end.
    destruct (Hread "0xA" "http://rpc" "0xC" eq_refl eq_refl eq_refl) as [_ Hbound].
    destruct (Hbound eq_refl) as [Hkey _]. apply Hkey. reflexivity.
Defined.

(** ** The client's [getPublicKey] *)

Section ClientGetPublicKey.

Variable w : App.BlockchainService.KeyWorld.
Variable address : string.

(** X13.  [BlockchainService.getPublicKey] asks the relay endpoint first
    and the contract itself second.  When the endpoint gives a key (it
    answers OK with a key that is not empty), that key is returned and the
    contract is not read.  In every other case, a failure of the endpoint
    included, the call goes on to the contract configured on the client:
    it returns what the contract's [getPublicKey] returns, after exactly
    that one read, and throws when the contract address is not configured,
    the binding fails or the read fails; a failing endpoint alone never
    makes the call fail.  So an empty key is only ever returned from the
    contract's own answer, and what is thrown is always an [Error] whose
    message is "Failed to fetch public key: " followed by the message of
    the failure of the direct path. *)
Theorem client_getPublicKey_fallback :
  let run := App.BlockchainService.getPublicKey w address [] in
  let url := "/api/relay/get-public-key?address=" +:+ address in
  let asked :=
    if App.BlockchainService.fetch_defined w
    then [App.BlockchainService.ApiAsked url] else [] in
  let failed message :=
    Relay.ErrorInstance ("Failed to fetch public key: " +:+ message) in
  (∀ key, relay_gives w address key →
     run = App.Done key [App.BlockchainService.ApiAsked url]) ∧
  ((∀ key, ¬ relay_gives w address key) →
     (Relay.configured (App.BlockchainService.NEXT_PUBLIC_CHAINMAIL_CONTRACT_ADDRESS w)
        = None →
      run = App.Threw
              (failed "Contract address not configured. Please set NEXT_PUBLIC_CHAINMAIL_CONTRACT_ADDRESS in .env.local and restart the dev server.")
              asked)
     ∧ ∀ c,
         Relay.configured (App.BlockchainService.NEXT_PUBLIC_CHAINMAIL_CONTRACT_ADDRESS w)
           = Some c →
         (∀ t, App.BlockchainService.new_Contract w c = Relay.Throws t →
               run = App.Threw (failed (App.message_or "Unknown error" t)) asked)
         ∧ (App.BlockchainService.new_Contract w c = Relay.Returns tt →
            (∀ key,
               App.BlockchainService.contract_getPublicKey w c address
                 = Relay.Returns key →
               run = App.Done key
                       (asked ++ [App.BlockchainService.ContractRead c address]))
            ∧ (∀ t,
                 App.BlockchainService.contract_getPublicKey w c address
                   = Relay.Throws t →
                 run = App.Threw (failed (App.message_or "Unknown error" t))
                         (asked ++ [App.BlockchainService.ContractRead c address])))) ∧
  (∀ c key,
     Relay.configured (App.BlockchainService.NEXT_PUBLIC_CHAINMAIL_CONTRACT_ADDRESS w) = Some c →
     App.BlockchainService.new_Contract w c = Relay.Returns tt →
     App.BlockchainService.contract_getPublicKey w c address = Relay.Returns key →
     run = App.Done key (asked ++ [App.BlockchainService.ContractRead c address])
     ∨ ∃ given, relay_gives w address given
                ∧ run = App.Done given [App.BlockchainService.ApiAsked url]) ∧
  (∀ trace, run = App.Done "" trace →
     ∃ c, App.BlockchainService.contract_getPublicKey w c address = Relay.Returns ""
          ∧ trace = asked ++ [App.BlockchainService.ContractRead c address]) ∧
  (∀ t trace, run = App.Threw t trace →
     (∀ key, ¬ relay_gives w address key)
     ∧ ∃ message, t = failed message).
Proof.
  cbv zeta.
  assert (Hgiven : ∀ key, relay_gives w address key →
    App.BlockchainService.ask_relay w address []
    = App.Done (Some key)
        [App.BlockchainService.ApiAsked ("/api/relay/get-public-key?address=" +:+ address)]).
  { intros key (Hdef & response & Hfetch & Hok & Hjson & Hkey).
    unfold App.BlockchainService.ask_relay. rewrite Hdef.
    unfold App.catch, App.andThen, App.perform, App.await, App.pure.
    rewrite Hfetch. simpl. rewrite Hok, Hjson.
    by rewrite bytes_length_pos, bool_decide_eq_false_2. }
  assert (Hask :
    (∃ key, relay_gives w address key)
    ∨ ((∀ key, ¬ relay_gives w address key)
       ∧ App.BlockchainService.ask_relay w address []
         = App.Done None
             (if App.BlockchainService.fetch_defined w
              then [App.BlockchainService.ApiAsked
                      ("/api/relay/get-public-key?address=" +:+ address)]
              else []))).
  { unfold relay_gives, App.BlockchainService.ask_relay.
    destruct (App.BlockchainService.fetch_defined w) eqn:Hdef.
    2: { right. split; [| reflexivity]. by intros key [Hno _]. }
    unfold App.catch, App.andThen, App.perform, App.await, App.pure.
    destruct (App.BlockchainService.fetch_key w _) as [response | t] eqn:Hfetch; simpl.
    2: { right. split; [| reflexivity]. intros key (_ & response & Hr & _). congruence. }
    destruct (App.BlockchainService.ok response) eqn:Hok.
    2: { right. split; [| reflexivity].
         intros key (_ & response' & Hr & Hok' & _). congruence. }
    destruct (App.BlockchainService.json response) as [[key |] | t] eqn:Hjson; simpl.
    - destruct (0 <? bytes_length key) eqn:Hlen.
      + left. exists key. split; [done |]. exists response. split_and!; try done.
        intros ->. discriminate Hlen.
      + right. split; [| reflexivity].
        intros key' (_ & response' & Hr & _ & Hj & Hne).
        assert (response' = response) as -> by congruence.
        assert (key' = key) as -> by congruence.
        rewrite bytes_length_pos in Hlen. apply negb_false_iff in Hlen.
        by apply bool_decide_eq_true_1 in Hlen.
    - right. split; [| reflexivity].
      intros key' (_ & response' & Hr & _ & Hj & _). congruence.
    - right. split; [| reflexivity].
      intros key' (_ & response' & Hr & _ & Hj & _). congruence. }
  assert (Hdirect : (∀ key, ¬ relay_gives w address key) →
    App.BlockchainService.ask_relay w address []
    = App.Done None
        (if App.BlockchainService.fetch_defined w
         then [App.BlockchainService.ApiAsked
                 ("/api/relay/get-public-key?address=" +:+ address)]
         else [])).
  { intros Hno. destruct Hask as [[key Hkey] | [_ Hrun]]; [| exact Hrun].
    by destruct (Hno key). }
  unfold App.BlockchainService.getPublicKey, App.catch, App.andThen.
  split_and!.
  - intros key Hkey. by rewrite (Hgiven key Hkey).
  - intros Hno. rewrite (Hdirect Hno).
    unfold App.BlockchainService.getContract, App.andThen, App.await, App.perform,
      App.pure, App.throw.
    split.
    + by intros ->.
    + intros c ->. split; [by intros t -> |].
      intros ->. split; [by intros key -> | by intros t ->].
  - intros c key Hc Hnew Hread.
    destruct Hask as [[given Hkey] | [Hno Hrun]].
    + right. exists given. split; [done |]. by rewrite (Hgiven given Hkey).
    + left. rewrite Hrun.
      unfold App.BlockchainService.getContract, App.andThen, App.await, App.perform,
        App.pure, App.throw.
      by rewrite Hc, Hnew, Hread.
  - intros trace.
    destruct Hask as [[given Hkey] | [Hno Hrun]].
    + rewrite (Hgiven given Hkey). intros [= -> <-].
      by destruct Hkey as (_ & response & _ & _ & _ & Hne).
    + rewrite Hrun.
      unfold App.BlockchainService.getContract, App.andThen, App.await, App.perform,
        App.pure, App.throw.
      destruct (Relay.configured _) as [c |]; [| discriminate].
      destruct (App.BlockchainService.new_Contract w c); [| discriminate].
      destruct (App.BlockchainService.contract_getPublicKey w c address) as [key | t]
        eqn:Hread; [| discriminate].
      intros [= -> <-]. by exists c.
  - intros t trace.
    destruct Hask as [[given Hkey] | [Hno Hrun]].
    + rewrite (Hgiven given Hkey). discriminate.
    + rewrite Hrun. intros Hthrown. split; [exact Hno |].
      revert Hthrown.
      unfold App.BlockchainService.getContract, App.andThen, App.await, App.perform,
        App.pure, App.throw.
      destruct (Relay.configured _) as [c |]; [| intros [= <- _]; by eexists].
      destruct (App.BlockchainService.new_Contract w c);
        [| intros [= <- _]; by eexists].
      destruct (App.BlockchainService.contract_getPublicKey w c address);
        [discriminate | intros [= <- _]; by eexists].
Qed.

End ClientGetPublicKey.

Lemma client_getPublicKey_fallback_witness :
  App.BlockchainService.getPublicKey
    (sample_key_world (Relay.Throws (Relay.ErrorInstance "network down")) (Some "0xC"))
    "0xA" []
  = App.Done "" [App.BlockchainService.ApiAsked "/api/relay/get-public-key?address=0xA";
                 App.BlockchainService.ContractRead "0xC" "0xA"].
Proof.
  destruct (client_getPublicKey_fallback
              (sample_key_world (Relay.Throws (Relay.ErrorInstance "network down")) (Some "0xC"))
              "0xA") as (_ & Hdirect & _).
  destruct Hdirect as [_ Hconfigured].
  { intros key (_ & response & Hfetch & _). discriminate Hfetch. }
  destruct (Hconfigured "0xC" eq_refl) as [_ Hbound].
  destruct (Hbound eq_refl) as [Hkey _].
  exact (Hkey "" eq_refl).
Defined.

(** ** The client's [logEmailSendRelay] over the send-email endpoint *)

Section ClientOverEndpoint.

Variable below_minimum : N → bool.
Variable EmailSent_topic : string.
Variable Number : N → N.
Variable rw : Relay.World.
Variable BigInt : string → Relay.result N.
Variable recipientAddress ipfsHash userAddress : string.

Lemma send_email_answers :
  let out := Relay.POST below_minimum EmailSent_topic Number rw in
  match Relay.body (fst out) with
  | Relay.ErrorBody _ => Relay.status (fst out) = 400 ∨ Relay.status (fst out) = 500
  | Relay.SuccessBody _ _ _ => Relay.status (fst out) = 200
  end.
Proof. cbv zeta. handler_cases; auto. Qed.

(** X14.  What the caller of [logEmailSendRelay] sees of the endpoint's
    answer.  An error answer with message [m] becomes the thrown
    [Error] "Failed to send via relay: m" (with "Relay transaction failed"
    for an empty [m]), and no result is returned; in particular a failure
    thrown inside the endpoint as an [Error], such as the ledger's
    rejection of the submission, reaches the caller with its message
    intact behind that prefix.  A success answer is returned with its id
    and hash, and its gas read back by [BigInt]. *)
Theorem relay_errors_reach_the_caller :
  let out := Relay.POST below_minimum EmailSent_topic Number rw in
  let run :=
    App.BlockchainService.logEmailSendRelay
      (client_of below_minimum EmailSent_topic Number rw BigInt)
      recipientAddress ipfsHash userAddress [] in
  let asked := [App.BlockchainService.RelayAsked recipientAddress ipfsHash userAddress] in
  (∀ m, Relay.body (fst out) = Relay.ErrorBody m →
     run = App.Threw
             (Relay.ErrorInstance
                ("Failed to send via relay: "
                 +:+ (if bool_decide (m = "") then "Relay transaction failed" else m)))
             asked) ∧
  (∀ message trace,
     Relay.try_block below_minimum EmailSent_topic Number rw []
       = Relay.Threw (Relay.ErrorInstance message) trace →
     message ≠ "" →
     run = App.Threw
             (Relay.ErrorInstance ("Failed to send via relay: " +:+ message)) asked) ∧
  (∀ emailId transactionHash gasUsed gas,
     Relay.body (fst out) = Relay.SuccessBody emailId transactionHash gasUsed →
     BigInt gasUsed = Relay.Returns gas →
     run = App.Done
             (App.BlockchainService.mkSendResult emailId transactionHash gas) asked).
Proof.
  cbv zeta.
  pose proof send_email_answers as Hst. cbv zeta in Hst.
  assert (Herr : ∀ m,
    Relay.body (fst (Relay.POST below_minimum EmailSent_topic Number rw)) = Relay.ErrorBody m →
    App.BlockchainService.logEmailSendRelay
      (client_of below_minimum EmailSent_topic Number rw BigInt)
      recipientAddress ipfsHash userAddress []
    = App.Threw
        (Relay.ErrorInstance
           ("Failed to send via relay: "
            +:+ (if bool_decide (m = "") then "Relay transaction failed" else m)))
        [App.BlockchainService.RelayAsked recipientAddress ipfsHash userAddress]).
  { intros m Hm. rewrite Hm in Hst.
    unfold App.BlockchainService.logEmailSendRelay, client_of,
      App.BlockchainService.delivered, App.catch, App.andThen, App.perform,
      App.await, App.throw; simpl.
    rewrite Hm. destruct Hst as [-> | ->]; reflexivity. }
  split_and!.
  - exact Herr.
  - intros message trace Hrun Hne.
    rewrite (Herr message).
    + by rewrite bool_decide_eq_false_2.
    + unfold Relay.POST. by rewrite Hrun.
  - intros emailId transactionHash gasUsed gas Hbody Hgas. rewrite Hbody in Hst.
    unfold App.BlockchainService.logEmailSendRelay, client_of,
      App.BlockchainService.delivered, App.catch, App.andThen, App.perform,
      App.await, App.throw, App.pure; simpl.
    rewrite Hbody, Hst. simpl. by rewrite Hgas.
Qed.

End ClientOverEndpoint.

Lemma relay_errors_reach_the_caller_witness :
  let rw := Relay.mkWorld
              (Relay.request_json (sample_world (Relay.Returns (10 ^ 18))))
              (Some "0xkey") (Some "http://rpc") (Some "0xC")
              (λ _ _, Relay.Returns "0xRelay") (λ _ _, Relay.Returns (10 ^ 18))
              (λ _ _, Relay.Returns tt)
              (λ _ _ _ _, Relay.Throws (Relay.ErrorInstance "Not authorized relay"))
              (λ _, Relay.Throws (Relay.ErrorInstance "unused"))
              (λ _ _, Relay.Returns 1) in
  App.BlockchainService.logEmailSendRelay
    (client_of below_0_001_ether "0xtopic" id rw (λ _, Relay.Returns 0))
    "0xB" "cid1" "0xA" []
  = App.Threw (Relay.ErrorInstance "Failed to send via relay: Not authorized relay")
      [App.BlockchainService.RelayAsked "0xB" "cid1" "0xA"].
Proof.
  cbv zeta.
  match goal with
  | |- App.BlockchainService.logEmailSendRelay (client_of _ _ _ ?rw ?B) _ _ _ _ = _ =>
      destruct (relay_errors_reach_the_caller below_0_001_ether "0xtopic" id rw B
                  "0xB" "cid1" "0xA") as (_ & Hthrown & _)
  end.
  eapply Hthrown; [vm_compute; reflexivity | discriminate].
Defined.

(** ** The client's [sendEmail] *)

Section ClientSendEmail.

Variable blank : string → bool.
Variable w : App.EmailService.SendWorld.
Variables to subject body : string.
Variables senderPrivateKey senderPrivateKeyArmored senderAddress : string.


End ClientSendEmail.


(** ** The client's mailbox listing *)

Lemma fetch_all_done w : ∀ emailIds trace emails trace',
  App.EmailService.fetch_all w emailIds trace = App.Done emails trace' →
  Forall2 (λ emailId m, ∃ onChainEmail,
             App.EmailService.getEmail_of w emailId = Relay.Returns onChainEmail
             ∧ m = App.EmailService.metadata emailId onChainEmail)
          emailIds emails.
Proof.
  induction emailIds as [| emailId rest IH]; intros trace emails trace'; simpl.
  - unfold App.pure. intros [= <- <-]. constructor.
  - unfold App.andThen, App.perform, App.pure.
    destruct (App.EmailService.getEmail_of w emailId) as [e | t] eqn:He; [| done].
    destruct (App.EmailService.fetch_all w rest (trace ++ [App.EmailService.EmailRead emailId]))
      as [others tr | t tr] eqn:Hrest; [| done].
    intros [= <- <-]. constructor; [by eexists | by eapply IH].
Qed.

Lemma fetch_all_ids w emailIds trace emails trace' :
  App.EmailService.fetch_all w emailIds trace = App.Done emails trace' →
  App.EmailService.meta_emailId <$> emails = emailIds.
Proof.
  intros H. apply fetch_all_done in H.
  induction H as [| emailId m ids ms (e & _ & ->) _ IH]; [done |].
  rewrite fmap_cons. by f_equal.
Qed.

Lemma fetch_all_readable w : ∀ emailIds trace,
  (∀ emailId, emailId ∈ emailIds →
     ∃ onChainEmail, App.EmailService.getEmail_of w emailId = Relay.Returns onChainEmail) →
  ∃ emails trace', App.EmailService.fetch_all w emailIds trace = App.Done emails trace'.
Proof.
  induction emailIds as [| emailId rest IH]; intros trace Hall; simpl.
  - by eexists _, _.
  - unfold App.andThen, App.perform, App.pure.
    destruct (Hall emailId) as [e ->]; [set_solver |].
    destruct (IH (trace ++ [App.EmailService.EmailRead emailId])) as (others & tr & ->);
      [intros; apply Hall; set_solver |].
    by eexists _, _.
Qed.

Lemma fetch_all_unreadable w : ∀ emailIds trace emailId t,
  emailId ∈ emailIds →
  App.EmailService.getEmail_of w emailId = Relay.Throws t →
  ∃ t' trace', App.EmailService.fetch_all w emailIds trace = App.Threw t' trace'.
Proof.
  induction emailIds as [| x rest IH]; intros trace emailId t Hin Hbad; simpl.
  - by apply elem_of_nil in Hin.
  - unfold App.andThen, App.perform, App.pure.
    destruct (App.EmailService.getEmail_of w x) as [e | t0] eqn:He; [| by eexists _, _].
    apply elem_of_cons in Hin as [-> | Hin]; [congruence |].
    destruct (IH (trace ++ [App.EmailService.EmailRead x]) emailId t Hin Hbad)
      as (t' & tr & ->).
    by eexists _, _.
Qed.

Lemma insert_newest_first_perm x l :
  App.EmailService.insert_newest_first x l ≡ₚ x :: l.
Proof.
  induction l as [| y l IH]; simpl; [done |].
  destruct (_ <=? _); [done |]. rewrite IH. apply Permutation_swap.
Qed.

Lemma sort_newest_first_perm l : App.EmailService.sort_newest_first l ≡ₚ l.
Proof.
  induction l as [| x l IH]; simpl; [done |].
  fold (App.EmailService.sort_newest_first l).
  by rewrite insert_newest_first_perm, IH.
Qed.

Lemma insert_newest_first_sorted x l :
  StronglySorted newer_or_equal l →
  StronglySorted newer_or_equal (App.EmailService.insert_newest_first x l).
Proof.
  induction 1 as [| y l Hs IH Hall]; simpl.
  - repeat constructor.
  - destruct (_ <=? _) eqn:Hle.
    + apply N.leb_le in Hle. constructor; [by constructor |].
      constructor; [done |].
      eapply Forall_impl; [exact Hall |]. unfold newer_or_equal. intros; simpl in *. lia.
    + apply N.leb_gt in Hle. constructor; [done |].
      rewrite insert_newest_first_perm. constructor; [| done].
      unfold newer_or_equal. lia.
Qed.

Lemma sort_newest_first_sorted l :
  StronglySorted newer_or_equal (App.EmailService.sort_newest_first l).
Proof.
  induction l as [| x l IH]; simpl; [constructor |].
  by apply insert_newest_first_sorted.
Qed.

Lemma insert_newest_first_stable (t : N) x l :
  filter (λ m, App.EmailService.meta_timestamp m = t)
    (App.EmailService.insert_newest_first x l)
  = filter (λ m, App.EmailService.meta_timestamp m = t) (x :: l).
Proof.
  induction l as [| y l IH]; simpl; [done |].
  destruct (_ <=? _) eqn:Hle; [done |]. apply N.leb_gt in Hle.
  rewrite !filter_cons in *.
  repeat case_decide; try lia; by rewrite ?IH.
Qed.

Lemma sort_newest_first_stable (t : N) l :
  filter (λ m, App.EmailService.meta_timestamp m = t)
    (App.EmailService.sort_newest_first l)
  = filter (λ m, App.EmailService.meta_timestamp m = t) l.
Proof.
  induction l as [| x l IH]; simpl; [done |].
  fold (App.EmailService.sort_newest_first l).
  by rewrite insert_newest_first_stable, !filter_cons, IH.
Qed.

Section ClientMailbox.

Variable w : App.EmailService.Ledger.
Variable recipientAddress : string.

(** X16.  [EmailService.getRecipientEmails] never throws.  When the index
    and every listed record can be read, it returns one entry per listed
    id, built from that id's record, ordered by timestamp with the newest
    first, entries of equal timestamp keeping the order of the index.  When
    the index or any one record cannot be read, it returns the empty list:
    the caller cannot tell a failed read from an empty mailbox. *)
Theorem getRecipientEmails_sorted_or_empty :
  let run := App.EmailService.getRecipientEmails w recipientAddress [] in
  (∃ emails trace, run = App.Done emails trace) ∧
  (∀ emailIds (record : N → App.EmailService.OnChainEmail),
     App.EmailService.getRecipientEmails_of w recipientAddress = Relay.Returns emailIds →
     (∀ emailId, emailId ∈ emailIds →
        App.EmailService.getEmail_of w emailId = Relay.Returns (record emailId)) →
     ∃ emails trace, run = App.Done emails trace
       ∧ StronglySorted newer_or_equal emails
       ∧ emails ≡ₚ (λ emailId, App.EmailService.metadata emailId (record emailId)) <$> emailIds
       ∧ ∀ t, filter (λ m, App.EmailService.meta_timestamp m = t) emails
              = filter (λ m, App.EmailService.meta_timestamp m = t)
                  ((λ emailId, App.EmailService.metadata emailId (record emailId)) <$> emailIds)) ∧
  (∀ t, App.EmailService.getRecipientEmails_of w recipientAddress = Relay.Throws t →
     ∃ trace, run = App.Done [] trace) ∧
  (∀ emailIds emailId t,
     App.EmailService.getRecipientEmails_of w recipientAddress = Relay.Returns emailIds →
     emailId ∈ emailIds →
     App.EmailService.getEmail_of w emailId = Relay.Throws t →
     ∃ trace, run = App.Done [] trace).
Proof.
  cbv zeta. unfold App.EmailService.getRecipientEmails.
  unfold App.catch, App.andThen, App.perform, App.pure. split_and!.
  - destruct (App.EmailService.getRecipientEmails_of w recipientAddress);
      [| by eexists _, _].
    destruct (App.EmailService.fetch_all _ _ _); by eexists _, _.
  - intros emailIds record -> Hall.
    destruct (fetch_all_readable w emailIds ([] ++ [App.EmailService.IndexRead recipientAddress]))
      as (emails & trace & Hfetch); [intros; by eexists; apply Hall |].
    rewrite Hfetch. eexists _, _. split; [reflexivity |].
    assert (Hemails : emails
      = (λ emailId, App.EmailService.metadata emailId (record emailId)) <$> emailIds).
    { apply fetch_all_done in Hfetch. clear -Hfetch Hall.
      induction Hfetch as [| emailId m ids ms (e & He & ->) _ IH]; [done |].
      simpl. rewrite Hall in He by set_solver. injection He as <-.
      f_equal. apply IH. intros; apply Hall; set_solver. }
    rewrite <- Hemails. split_and!.
    + apply sort_newest_first_sorted.
    + apply sort_newest_first_perm.
    + intros t. apply sort_newest_first_stable.
  - intros t ->. by eexists.
  - intros emailIds emailId t -> Hin Hbad.
    destruct (fetch_all_unreadable w emailIds
                ([] ++ [App.EmailService.IndexRead recipientAddress]) emailId t Hin Hbad)
      as (t' & trace & ->).
    by eexists.
Qed.

End ClientMailbox.

Lemma getRecipientEmails_sorted_or_empty_witness :
  ∃ trace,
    App.EmailService.getRecipientEmails (sample_ledger [1; 2; 3] [2]) "0xB" []
    = App.Done [] trace.
Proof.
  destruct (getRecipientEmails_sorted_or_empty (sample_ledger [1; 2; 3] [2]) "0xB")
    as (_ & _ & _ & Hlost).
  apply (Hlost [1; 2; 3] 2 (Relay.ErrorInstance "Failed to fetch email"));
    [reflexivity | | reflexivity].
  repeat constructor.
Defined.

(** ** Polling for new mail *)

Lemma growing_last previous lists :
  growing previous lists → previous `prefix_of` default previous (last lists).
Proof.
  revert previous. induction lists as [| emailIds rest IH]; intros previous; simpl.
  - done.
  - intros [Hp Hrest]. rewrite last_cons.
    specialize (IH _ Hrest). destruct (last rest); simpl in *; by etrans.
Qed.

Lemma polls_batches_nonempty recipientAddress ws : ∀ lastEmailCount,
  Forall (λ batch, batch ≠ []) (App.EmailService.polls ws recipientAddress lastEmailCount).
Proof.
  induction ws as [| w rest IH]; intros n; simpl; [constructor |].
  unfold App.EmailService.poll.
  destruct (App.EmailService.getRecipientEmails_of w recipientAddress) as [ids | t];
    [| apply IH].
  destruct (n <? length ids)%nat eqn:Hn; [| apply IH].
  destruct (App.EmailService.fetch_all w (drop n ids) []) as [emails tr | t tr] eqn:Hf;
    [| apply IH].
  simpl. constructor; [| apply IH].
  apply fetch_all_ids in Hf. apply Nat.ltb_lt in Hn.
  intros ->. apply (f_equal length) in Hf. rewrite length_drop in Hf. simpl in Hf. lia.
Qed.

Lemma polls_ids recipientAddress ws : ∀ lists previous,
  Forall2 (healthy recipientAddress) ws lists →
  growing previous lists →
  App.EmailService.meta_emailId
    <$> concat (App.EmailService.polls ws recipientAddress (length previous))
  = drop (length previous) (default previous (last lists)).
Proof.
  induction ws as [| w rest IH]; intros lists previous Hh Hg.
  - apply Forall2_nil_inv_l in Hh as ->. simpl. by rewrite drop_all.
  - apply Forall2_cons_inv_l in Hh as (ids & lists' & [Hindex Hread] & Hrest & ->).
    destruct Hg as [Hp Hg]. simpl. unfold App.EmailService.poll. rewrite Hindex.
    rewrite last_cons.
    assert (Hfinal : default previous
                       (match last lists' with Some y => Some y | None => Some ids end)
                     = default ids (last lists')) by (by destruct (last lists')).
    rewrite Hfinal. clear Hfinal.
    pose proof (growing_last _ _ Hg) as [k Hk].
    pose proof (prefix_length _ _ Hp) as Hlen.
    destruct (length previous <? length ids)%nat eqn:Hn.
    + destruct (fetch_all_readable w (drop (length previous) ids) [])
        as (emails & tr & Hf); [intros id Hid; apply Hread; by eapply subseteq_drop |].
      rewrite Hf. simpl. rewrite fmap_app, (fetch_all_ids _ _ _ _ _ Hf).
      rewrite (IH _ _ Hrest Hg), Hk.
      rewrite drop_app_length, drop_app_le by lia. reflexivity.
    + apply Nat.ltb_ge in Hn.
      assert (previous = ids) as ->.
      { destruct Hp as [k' ->]. rewrite length_app in Hn.
        destruct k'; [by rewrite app_nil_r | simpl in Hn; lia]. }
      simpl. by apply IH.
Qed.

Section Polling.

Variable recipientAddress : string.

(** X17.  The loop of [pollForNewEmails], one run after the other, on an
    index that only grows: when every read succeeds, the batches handed to
    the callback, put end to end, hold exactly the ids of the index as it
    stands at the last run, each once and in the order of the index.  The
    callback is never handed an empty batch, whatever the reads do. *)
Theorem polling_delivers_each_id_once ws lists :
  Forall2 (healthy recipientAddress) ws lists →
  growing [] lists →
  App.EmailService.meta_emailId
    <$> concat (App.EmailService.polls ws recipientAddress 0)
  = default [] (last lists)
  ∧ Forall (λ batch, batch ≠ []) (App.EmailService.polls ws recipientAddress 0).
Proof.
  intros Hh Hg. split; [| apply polls_batches_nonempty].
  exact (polls_ids recipientAddress ws lists [] Hh Hg).
Qed.

(** X18.  The loop advances its counter before it reads the new records.
    So when one of those reads fails, the callback is not called in that
    run, and the ids that were new in it are never delivered: however well
    the later runs go, they deliver only what the index gains after the
    failed run. *)
Theorem failed_poll_loses_its_batch w emailIds lastEmailCount emailId t ws lists :
  App.EmailService.getRecipientEmails_of w recipientAddress = Relay.Returns emailIds →
  emailId ∈ drop lastEmailCount emailIds →
  App.EmailService.getEmail_of w emailId = Relay.Throws t →
  Forall2 (healthy recipientAddress) ws lists →
  growing emailIds lists →
  NoDup (default emailIds (last lists)) →
  App.EmailService.poll w recipientAddress lastEmailCount = (length emailIds, None)
  ∧ App.EmailService.meta_emailId
      <$> concat (App.EmailService.polls (w :: ws) recipientAddress lastEmailCount)
    = drop (length emailIds) (default emailIds (last lists))
  ∧ ∀ lost, lost ∈ drop lastEmailCount emailIds →
      lost ∉ App.EmailService.meta_emailId
               <$> concat (App.EmailService.polls (w :: ws) recipientAddress lastEmailCount).
Proof.
  intros Hindex Hin Hbad Hh Hg Hnodup.
  assert (Hpoll : App.EmailService.poll w recipientAddress lastEmailCount
                  = (length emailIds, None)).
  { unfold App.EmailService.poll. rewrite Hindex.
    destruct (lastEmailCount <? length emailIds)%nat eqn:Hn.
    - destruct (fetch_all_unreadable w _ [] _ _ Hin Hbad) as (t' & tr & ->). reflexivity.
    - apply Nat.ltb_ge in Hn. rewrite drop_ge in Hin by done. by apply elem_of_nil in Hin. }
  assert (Hlater : App.EmailService.meta_emailId
      <$> concat (App.EmailService.polls (w :: ws) recipientAddress lastEmailCount)
    = drop (length emailIds) (default emailIds (last lists))).
  { simpl. rewrite Hpoll. simpl. by apply polls_ids. }
  split_and!; [done | done |].
  intros lost Hlost. rewrite Hlater.
  destruct (growing_last _ _ Hg) as [k Hk]. rewrite Hk in Hnodup |- *.
  rewrite drop_app_length. apply NoDup_app in Hnodup as (_ & Hdisjoint & _).
  apply Hdisjoint. by eapply subseteq_drop.
Qed.

End Polling.

Lemma polling_delivers_each_id_once_witness :
  App.EmailService.meta_emailId
    <$> concat (App.EmailService.polls
                  [sample_ledger [1; 2] []; sample_ledger [1; 2] [];
                   sample_ledger [1; 2; 5] []] "0xB" 0)
  = [1; 2; 5]
  ∧ Forall (λ batch, batch ≠ [])
      (App.EmailService.polls
         [sample_ledger [1; 2] []; sample_ledger [1; 2] [];
          sample_ledger [1; 2; 5] []] "0xB" 0).
Proof.
  apply (polling_delivers_each_id_once "0xB"
           [sample_ledger [1; 2] []; sample_ledger [1; 2] []; sample_ledger [1; 2; 5] []]
           [[1; 2]; [1; 2]; [1; 2; 5]]).
  - repeat constructor; intros emailId _; simpl; by eexists.
  - simpl. split_and!; [by apply prefix_nil | done | by exists [5] | done].
Defined.

Lemma failed_poll_loses_its_batch_witness :
  App.EmailService.poll (sample_ledger [1; 2; 3] [3]) "0xB" 1 = (3%nat, None)
  ∧ App.EmailService.meta_emailId
      <$> concat (App.EmailService.polls
                    [sample_ledger [1; 2; 3] [3]; sample_ledger [1; 2; 3; 4] []] "0xB" 1)
    = [4]
  ∧ ∀ lost, lost ∈ [2; 3] →
      lost ∉ App.EmailService.meta_emailId
               <$> concat (App.EmailService.polls
                             [sample_ledger [1; 2; 3] [3]; sample_ledger [1; 2; 3; 4] []]
                             "0xB" 1).
Proof.
  apply (failed_poll_loses_its_batch "0xB" (sample_ledger [1; 2; 3] [3]) [1; 2; 3] 1 3
           (Relay.ErrorInstance "Failed to fetch email")
           [sample_ledger [1; 2; 3; 4] []] [[1; 2; 3; 4]]).
  - reflexivity.
  - simpl. repeat constructor.
  - reflexivity.
  - repeat constructor; intros emailId _; simpl; by eexists.
  - simpl. split; [by exists [4] | done].
  - simpl. compute_done.
Defined.

(** ** Addresses as mail addresses *)

Lemma before_at_app a rest :
  App.WalletService.has_at a = false →
  App.WalletService.before_at (a +:+ String "@" rest) = a.
Proof.
  induction a as [| c a IH]; simpl; [done |].
  intros [Hc Ha]%orb_false_iff. rewrite Hc. f_equal. by apply IH.
Qed.

Lemma before_at_has_no_at s :
  App.WalletService.has_at (App.WalletService.before_at s) = false.
Proof.
  induction s as [| c s IH]; simpl; [done |].
  destruct (Ascii.eqb c "@") eqn:Hc; simpl; [done |]. by rewrite Hc.
Qed.

Lemma before_at_prefix s :
  ∃ rest, s = App.WalletService.before_at s +:+ rest
          ∧ (rest = "" ∨ ∃ domain, rest = String "@" domain).
Proof.
  induction s as [| c s (rest & IH & Hrest)]; simpl.
  - exists "". split; [done | by left].
  - destruct (Ascii.eqb c "@") eqn:Hc.
    + apply Ascii.eqb_eq in Hc as ->. exists (String "@" s).
      split; [done | right; by eexists].
    + exists rest. split; [| done]. exact (f_equal (String c) IH).
Qed.

Section WalletAddresses.

Variable isAddress : string → bool.
Variable NEXT_PUBLIC_EMAIL_DOMAIN : option string.

(** X19.  [WalletService.extractAddressFromEmail] undoes [formatAsEmail]
    on every address [isAddress] accepts (an address holds no '@'),
    whatever the configured domain.  It looks at nothing after the first
    '@': an accepted address followed by any domain at all gives the
    address back.  What it returns is always accepted by [isAddress], holds
    no '@' and is the input up to its first '@'; every other input is
    rejected with "Invalid email format". *)
Theorem extractAddressFromEmail_formatAsEmail :
  (∀ address,
     isAddress address = true → App.WalletService.has_at address = false →
     App.WalletService.extractAddressFromEmail isAddress
       (App.WalletService.formatAsEmail NEXT_PUBLIC_EMAIL_DOMAIN address)
     = Relay.Returns address) ∧
  (∀ address domain,
     isAddress address = true → App.WalletService.has_at address = false →
     App.WalletService.extractAddressFromEmail isAddress (address +:+ "@" +:+ domain)
     = Relay.Returns address) ∧
  (∀ email address,
     App.WalletService.extractAddressFromEmail isAddress email = Relay.Returns address →
     isAddress address = true ∧ App.WalletService.has_at address = false
     ∧ ∃ rest, email = address +:+ rest ∧ (rest = "" ∨ ∃ domain, rest = String "@" domain)) ∧
  (∀ email t,
     App.WalletService.extractAddressFromEmail isAddress email = Relay.Throws t →
     t = Relay.ErrorInstance "Invalid email format"
     ∧ isAddress (App.WalletService.before_at email) = false).
Proof.
  assert (Hany : ∀ address domain,
    isAddress address = true → App.WalletService.has_at address = false →
    App.WalletService.extractAddressFromEmail isAddress (address +:+ "@" +:+ domain)
    = Relay.Returns address).
  { intros address domain Hok Hat. unfold App.WalletService.extractAddressFromEmail.
    change ("@" +:+ domain) with (String "@" domain).
    rewrite before_at_app by done. by rewrite Hok. }
  split_and!.
  - intros address Hok Hat. by apply Hany.
  - exact Hany.
  - intros email address. unfold App.WalletService.extractAddressFromEmail.
    destruct (isAddress (App.WalletService.before_at email)) eqn:Hok; simpl; [| done].
    intros [= <-]. split_and!; [done | apply before_at_has_no_at | apply before_at_prefix].
  - intros email t. unfold App.WalletService.extractAddressFromEmail.
    destruct (isAddress (App.WalletService.before_at email)) eqn:Hok; simpl; [done |].
    by intros [= <-].
Qed.

End WalletAddresses.

Lemma extractAddressFromEmail_formatAsEmail_witness :
  App.WalletService.extractAddressFromEmail (λ s, bool_decide (String.length s = 4%nat))
    (App.WalletService.formatAsEmail None "0xAB")
  = Relay.Returns "0xAB".
Proof.
  destruct (extractAddressFromEmail_formatAsEmail
              (λ s, bool_decide (String.length s = 4%nat)) None) as (Hround & _).
  apply Hround; reflexivity.
Defined.

(** ** Polling by block range *)






Section BlockRangePolling.

Variable recipientAddress : string.


End BlockRangePolling.


(** ** The relay service *)

Lemma initializeRelayWallet_cached w fields trace wallet :
  App.RelayService.relayWallet fields = Some wallet →
  App.RelayService.initializeRelayWallet w fields trace
  = (Relay.Returns wallet, fields, trace).
Proof.
  intros Hcached. unfold App.RelayService.initializeRelayWallet,
    App.RelayService.bind, App.RelayService.read_fields.
  by rewrite Hcached.
Qed.

Lemma initializeRelayWallet_fresh w fields trace outcome fields' trace' :
  App.RelayService.relayWallet fields = None →
  App.RelayService.initializeRelayWallet w fields trace = (outcome, fields', trace') →
  trace' = trace
  ∧ match outcome with
    | Relay.Returns wallet =>
        App.RelayService.relayWallet fields' = Some wallet
        ∧ App.RelayService.provider wallet ≠ None
    | Relay.Throws _ => App.RelayService.relayWallet fields' = None
    end.
Proof.
  intros Hfresh. unfold App.RelayService.initializeRelayWallet,
    App.RelayService.bind at 1, App.RelayService.read_fields.
  rewrite Hfresh.
  destruct (Relay.configured (App.RelayService.RELAY_WALLET_PRIVATE_KEY w)) as [key |];
    [| by intros [= <- <- <-]].
  case_bool_decide; [by intros [= <- <- <-] |].
  destruct (Relay.configured (App.RelayService.NEXT_PUBLIC_BLOCKDAG_RPC_URL w)) as [rpcUrl |];
    [| by intros [= <- <- <-]].
  unfold App.RelayService.bind, App.RelayService.call, App.RelayService.write_fields,
    App.RelayService.ret.
  destruct (App.RelayService.new_JsonRpcProvider w rpcUrl); [| by intros [= <- <- <-]].
  destruct (App.RelayService.new_Wallet w key rpcUrl); by intros [= <- <- <-].
Qed.

Section RelayServiceWallet.

Variable w : App.RelayService.World.

(** X21.  [RelayService] creates its wallet once.  A call of
    [getRelayWallet] that returns leaves the wallet it returned in the
    static field, and from then on every call returns that same wallet
    without reading the environment, whatever the environment has become.
    A wallet created here is connected to a provider.  A call that throws
    found the field empty and leaves it empty: the environment is read
    again by the next call. *)
Theorem relay_wallet_created_once fields trace outcome fields' trace' :
  App.RelayService.getRelayWallet w fields trace = (outcome, fields', trace') →
  trace' = trace
  ∧ (∀ wallet, outcome = Relay.Returns wallet →
       App.RelayService.relayWallet fields' = Some wallet
       ∧ (App.RelayService.relayWallet fields = None →
            App.RelayService.provider wallet ≠ None)
       ∧ ∀ w2 trace2,
           App.RelayService.getRelayWallet w2 fields' trace2
           = (Relay.Returns wallet, fields', trace2))
  ∧ (∀ t, outcome = Relay.Throws t →
       App.RelayService.relayWallet fields = None
       ∧ App.RelayService.relayWallet fields' = None).
Proof.
  unfold App.RelayService.getRelayWallet. intros Hrun.
  destruct (App.RelayService.relayWallet fields) as [cached |] eqn:Hfield.
  - rewrite (initializeRelayWallet_cached w fields trace cached Hfield) in Hrun.
    injection Hrun as <- <- <-. split_and!; [done | | done].
    intros wallet [= <-]. split_and!; [done | done |].
    intros w2 trace2. by apply initializeRelayWallet_cached.
  - destruct (initializeRelayWallet_fresh w fields trace _ _ _ Hfield Hrun) as [-> Hout].
    split_and!; [done | |].
    + intros wallet ->. destruct Hout as [Hcached Hprovider]. split_and!; [done | done |].
      intros w2 trace2. by apply initializeRelayWallet_cached.
    + by intros t ->.
Qed.

End RelayServiceWallet.

Lemma relay_wallet_created_once_witness :
  App.RelayService.getRelayWallet unconfigured_service
    (App.RelayService.mkFields
       (Some (App.RelayService.mkWallet "0xRelay" (Some "http://rpc")))
       (Some "http://rpc")) []
  = (Relay.Returns (App.RelayService.mkWallet "0xRelay" (Some "http://rpc")),
     App.RelayService.mkFields
       (Some (App.RelayService.mkWallet "0xRelay" (Some "http://rpc")))
       (Some "http://rpc"), []).
Proof.
  destruct (relay_wallet_created_once (sample_service (Relay.Returns 0))
              (App.RelayService.mkFields None None) [] _ _ _ eq_refl)
    as (_ & Hcached & _).
  destruct (Hcached _ eq_refl) as (_ & _ & Hagain).
  exact (Hagain unconfigured_service []).
Defined.

Section RelayServiceTransaction.

Variable below_minimum : N → bool.
Variable w : App.RelayService.World.
Variables contractAddress functionName : string.
Variable args : list Relay.JsValue.


End RelayServiceTransaction.

